(** * keylime/common.py: request-parameter normalisation, regex validation
      and the JSON response emitter

    A shallow embedding of [list_to_dict], [get_restful_params],
    [valid_exclude_list], [valid_regex] and [echo_json_response], and of
    [convert], [list_convert], [get_config], [chownroot] and [ch_dir].

    Conventions.
    - A Python [str] is a [string]; one [ascii] stands for one character
      (code points 0..255), so [String.length] is Python's [len].
    - A Python [dict] is an insertion-ordered association list with unique
      keys: assigning to a key that is present replaces the value where the
      key already sits, assigning to a new key appends.
    - [None] is [option]'s [None].
    - In [convert] the text that [bytes.decode()] produces is a type of
      its own, given with the decoder.
    - A call that may raise returns a [result]; the functions of the
      standard library the module imports are interfaces (type classes),
      with an executable instance for each further down. *)

From Stdlib Require Import String Ascii List Bool Arith ZArith Lia.
From Stdlib Require Import Decimal DecimalString.
Import ListNotations.
Local Open Scope string_scope.
Local Open Scope list_scope.
Local Open Scope nat_scope.

Set Implicit Arguments.

(* ================================================================== *)
(** ** Python values *)

Module Py.

(** The exceptions that can reach a caller of the modelled functions;
    [PyException] stands for any further exception class, by name. *)
Inductive exn : Type :=
| KeyError
| ValueError
| OverflowError
| RecursionError
| PyException (name : string).

(** Outcome of a call: a returned value or a raised exception. *)
Inductive result (A : Type) : Type :=
| Ok (a : A)
| Raise (e : exn).
Arguments Ok {A} a.
Arguments Raise {A} e.

Definition bind {A B} (m : result A) (k : A -> result B) : result B :=
  match m with
  | Ok a => k a
  | Raise e => Raise e
  end.

Definition raises {A} (m : result A) : bool :=
  match m with Ok _ => false | Raise _ => true end.

End Py.
Export Py.

Notation "x <- m ;; k" := (Py.bind m (fun x => k))
  (at level 61, m at next level, right associativity).

(* ================================================================== *)
(** ** Dictionaries *)

Module Dict.
Section WithValue.
Variable V : Type.

Definition t := list (string * V).

Definition empty : t := [].

(** [d[k]] as [d.get(k)]: the value stored under [k], if any. *)
Fixpoint get (d : t) (k : string) : option V :=
  match d with
  | [] => None
  | (k', v) :: d' => if String.eqb k' k then Some v else get d' k
  end.

(** [d[k] = v]. *)
Fixpoint setitem (d : t) (k : string) (v : V) : t :=
  match d with
  | [] => [(k, v)]
  | (k', v') :: d' =>
      if String.eqb k' k then (k', v) :: d' else (k', v') :: setitem d' k v
  end.

(** [d.update(pairs)]: the assignments of [pairs], left to right. *)
Fixpoint update (d : t) (pairs : list (string * V)) : t :=
  match pairs with
  | [] => d
  | (k, v) :: rest => update (setitem d k v) rest
  end.

Definition keys (d : t) : list string := map fst d.

Definition mem (d : t) (k : string) : bool :=
  match get d k with Some _ => true | None => false end.

(** The last value a list of pairs gives for [k]. *)
Fixpoint last_value (pairs : list (string * V)) (k : string) : option V :=
  match pairs with
  | [] => None
  | (k', v) :: rest =>
      match last_value rest k with
      | Some w => Some w
      | None => if String.eqb k' k then Some v else None
      end
  end.

End WithValue.
End Dict.

Arguments Dict.empty {V}.

(** A parameter value: a string, or [None]. *)
Definition value := option string.
Definition pdict := Dict.t value.

(* ================================================================== *)
(** ** list_to_dict *)

(** The [while (i < len(list))] loop; [fuel] bounds the number of
    iterations, [length list] of them are always enough. *)
Fixpoint list_to_dict_loop (fuel : nat) (list : list string) (i : nat)
    (params : pdict) : pdict :=
  match fuel with
  | O => params
  | S fuel' =>
      if i <? length list then
        let v := if i + 1 <? length list
                 then Some (nth (i + 1) list "") else None in
        list_to_dict_loop fuel' list (i + 2)
          (Dict.setitem params (nth i list "") v)
      else params
  end.

Definition list_to_dict (list : list string) : pdict :=
  list_to_dict_loop (length list) list 0 Dict.empty.

(** The same grouping by recursion on the tokens, two at a time. *)
Fixpoint pair_up (tokens : list string) (acc : pdict) : pdict :=
  match tokens with
  | [] => acc
  | [k] => Dict.setitem acc k None
  | k :: v :: rest => pair_up rest (Dict.setitem acc k (Some v))
  end.

(** The tokens at even positions: the keys, in order. *)
Fixpoint key_tokens (tokens : list string) : list string :=
  match tokens with
  | [] => []
  | [k] => [k]
  | k :: _ :: rest => k :: key_tokens rest
  end.

(** A mapping written back as an alternating key/value sequence; a key
    whose value is [None] contributes the key alone. *)
Fixpoint flatten (d : pdict) : list string :=
  match d with
  | [] => []
  | (k, Some v) :: d' => k :: v :: flatten d'
  | (k, None) :: d' => k :: flatten d'
  end.

(* ================================================================== *)
(** ** String methods used by the module *)

Module Str.

(** [s.lstrip(c)] for a single character [c]. *)
Fixpoint lstrip (s : string) (c : ascii) : string :=
  match s with
  | String a s' => if Ascii.eqb a c then lstrip s' c else s
  | EmptyString => EmptyString
  end.

(** [s.rstrip(c)]. *)
Fixpoint rstrip (s : string) (c : ascii) : string :=
  match s with
  | String a s' =>
      match rstrip s' c with
      | EmptyString => if Ascii.eqb a c then EmptyString else String a EmptyString
      | r => String a r
      end
  | EmptyString => EmptyString
  end.

(** [s.strip(c)]. *)
Definition strip (s : string) (c : ascii) : string := rstrip (lstrip s c) c.

(** [s.split(sep)] for a single character [sep]: never empty. *)
Fixpoint split (s : string) (sep : ascii) : list string :=
  match s with
  | EmptyString => [EmptyString]
  | String a s' =>
      if Ascii.eqb a sep then EmptyString :: split s' sep
      else match split s' sep with
           | h :: t => String a h :: t
           | [] => [String a EmptyString]
           end
  end.

(** [s.split(sep, 1)]: cut at the first [sep], if there is one. *)
Fixpoint split1 (s : string) (sep : ascii) : string * option string :=
  match s with
  | EmptyString => (EmptyString, None)
  | String a s' =>
      if Ascii.eqb a sep then (EmptyString, Some s')
      else let (h, t) := split1 s' sep in (String a h, t)
  end.

(** [sep.join(l)]. *)
Fixpoint join (sep : string) (l : list string) : string :=
  match l with
  | [] => EmptyString
  | [x] => x
  | x :: rest => (x ++ sep ++ join sep rest)%string
  end.

(** [s[i]], a one-character string, for [i < len(s)]. *)
Definition getitem (s : string) (i : nat) : string := substring i 1 s.

(** [s.replace(a, b)] for single characters. *)
Fixpoint replace (s : string) (a b : ascii) : string :=
  match s with
  | EmptyString => EmptyString
  | String c s' => String (if Ascii.eqb c a then b else c) (replace s' a b)
  end.

(** [c in s]. *)
Fixpoint contains (s : string) (c : ascii) : bool :=
  match s with
  | EmptyString => false
  | String a s' => Ascii.eqb a c || contains s' c
  end.

(** [s.encode('utf-8')]: one byte below U+0080, two bytes from there to
    U+00FF. *)
Fixpoint encode_utf8 (s : string) : list Byte.byte :=
  match s with
  | EmptyString => []
  | String c s' =>
      let n := N_of_ascii c in
      if (n <? 128)%N then byte_of_ascii c :: encode_utf8 s'
      else byte_of_ascii (ascii_of_N (192 + n / 64))
           :: byte_of_ascii (ascii_of_N (128 + n mod 64))
           :: encode_utf8 s'
  end.

End Str.

(* ================================================================== *)
(** ** Interfaces of the imported library modules *)

(** [urllib.parse.SplitResult]. *)
Record SplitResult : Type := mkSplitResult
  { scheme : string; netloc : string; path : string;
    query : string; fragment : string }.

(** [urllib.parse]: [urlsplit(url)] and [parse_qsl(qs)], both called with
    their default arguments. *)
Class UrllibParse : Type :=
  { urlsplit : string -> result SplitResult;
    parse_qsl : string -> result (list (string * string)) }.

(** Outcome of [re.compile]: a pattern object, [re.error] with its
    [msg], or another exception ([OverflowError] for a repetition count
    that is too large, [RecursionError] for groups nested too deep). *)
Inductive compiled (P : Type) : Type :=
| Compiled (p : P)
| ReError (msg : string)
| Raised (e : exn).
Arguments Compiled {P} p.
Arguments ReError {P} msg.
Arguments Raised {P} e.

(** [re]: the pattern objects and [re.compile] on a [str]. *)
Class ReModule : Type :=
  { Pattern : Type;
    re_compile : string -> compiled Pattern }.

(** [http.client.responses]: the table of standard reason phrases. *)
Class HttpClient : Type :=
  { responses : Z -> option string }.

(** A JSON-serialisable Python value. *)
#[local] Set Warnings "-register-all".
Inductive json : Type :=
| JNull
| JBool (b : bool)
| JInt (z : Z)
| JStr (s : string)
| JList (l : list json)
| JDict (d : list (string * json)).

#[local] Set Warnings "register-all".

(** [simplejson]: [dumps] on a serialisable value. *)
Class SimpleJson : Type :=
  { dumps : json -> string }.

(* ================================================================== *)
(** ** get_restful_params *)

(** Current Keylime API version. *)
Definition API_VERSION : string := "2".

Section RestfulParams.
Context `{UrllibParse}.

(** The query pairs as dictionary items: every value is a string. *)
Definition items (query_params : list (string * string))
  : list (string * value) :=
  map (fun kv => (fst kv, Some (snd kv))) query_params.

(** The version check on the first path token: [None] when the token is
    a version token for another version (the function returns [None]
    there), otherwise the recorded version and the tokens left. *)
Definition check_version (path_tokens : list string)
  : option (string * list string) :=
  let api_version := API_VERSION in
  let first := nth 0 path_tokens "" in
  if (String.length first =? 2) && String.eqb (Str.getitem first 0) "v"
  then
    if negb (String.eqb (Str.getitem first 1) API_VERSION) then None
    else Some (first, tl path_tokens)        (* path_tokens.pop(0) *)
  else Some (api_version, path_tokens).

(** Returns a dictionary of paired RESTful URI parameters. *)
Definition get_restful_params (urlstring : string)
  : result (option pdict) :=
  parsed_path <- urlsplit (Str.strip urlstring "/") ;;
  query_params <- parse_qsl (query parsed_path) ;;
  let path_tokens := Str.split (path parsed_path) "/" in
  match check_version path_tokens with
  | None => Ok None
  | Some (api_version, path_tokens) =>
      let path_params := list_to_dict path_tokens in
      let path_params :=
        Dict.setitem path_params "api_version" (Some api_version) in
      let path_params := Dict.update path_params (items query_params) in
      Ok (Some path_params)
  end.

End RestfulParams.

(* ================================================================== *)
(** ** valid_exclude_list and valid_regex *)

Section Regex.
Context `{ReModule}.

(** The tri-tuple [(ok, compiled_regex, err)]. *)
Definition validation : Type := bool * option Pattern * option string.

Definition valid_regex (regex : option string) : result validation :=
  match regex with
  | None => Ok (true, None, None)
  | Some regex =>
      match re_compile regex with
      | ReError msg =>
          let err := ("Invalid regex: " ++ msg ++ ".")%string in
          Ok (false, None, Some err)
      | Raised e => Raise e              (* not caught by [except re.error] *)
      | Compiled compiled_regex => Ok (true, Some compiled_regex, None)
      end
  end.

Definition valid_exclude_list (exclude_list : list string)
  : result validation :=
  match exclude_list with
  | [] => Ok (true, None, None)
  | _ =>
      let combined_regex :=
        ("(" ++ Str.join ")|(" exclude_list ++ ")")%string in
      valid_regex (Some combined_regex)
  end.

End Regex.

(* ================================================================== *)
(** ** echo_json_response *)

(** The method calls the emitter makes on the handler. *)
Inductive call : Type :=
| send_response (code : Z)
| send_header (name val : string)
| end_headers
| wfile_write (data : list Byte.byte)
| set_status (code : Z)
| set_header (name val : string)
| write (data : list Byte.byte)
| finish.

(** A handler object: what [isinstance] answers for it, and which of
    its method calls raise (a closed connection, a request that is
    already finished), with the exception raised. *)
Record handler : Type := mkHandler
  { isinstance_BaseHTTPRequestHandler : bool;
    isinstance_RequestHandler : bool;       (* tornado.web.RequestHandler *)
    method_raises : call -> option exn }.

(** Computations that call handler methods and return or raise: the
    calls made so far are threaded through, and a raise stops the rest. *)
Module Eff.

Definition t (A : Type) : Type := list call -> list call * result A.

Definition ret {A} (a : A) : t A := fun tr => (tr, Ok a).

Definition lift {A} (r : result A) : t A := fun tr => (tr, r).

(** The call [c] on the handler [h]: it is recorded, and returns or
    raises as the handler has it. *)
Definition invoke (h : handler) (c : call) : t unit :=
  fun tr =>
    match method_raises h c with
    | None => (tr ++ [c], Ok tt)
    | Some e => (tr ++ [c], Raise e)
    end.

Definition bind {A B} (m : t A) (k : A -> t B) : t B :=
  fun tr =>
    match m tr with
    | (tr', Ok a) => k a tr'
    | (tr', Raise e) => (tr', Raise e)
    end.

Definition run {A} (m : t A) : list call * result A := m [].

End Eff.

Notation "x <~ m ;; k" := (Eff.bind m (fun x => k))
  (at level 61, m at next level, right associativity).
Notation "m ;;; k" := (Eff.bind m (fun _ => k))
  (at level 61, right associativity).

Section Echo.
Context `{HttpClient} `{SimpleJson}.

(** [http.client.responses[code]]: a missing key raises [KeyError]. *)
Definition responses_getitem (code : Z) : result string :=
  match responses code with
  | Some phrase => Ok phrase
  | None => Raise KeyError
  end.

(** Takes a json package and returns it to the user w/ full HTTP
    headers. *)
Definition echo_json_response (handler : option handler)
    (code : option Z) (status : option string) (results : option json)
  : Eff.t bool :=
  match handler, code with
  | None, _ | _, None => Eff.ret false
  | Some handler, Some code =>
      status <~ match status with
                | None => Eff.lift (responses_getitem code)
                | Some status => Eff.ret status
                end ;;
      let results := match results with
                     | None => JDict []
                     | Some results => results
                     end in
      let json_res :=
        JDict [("code", JInt code); ("status", JStr status);
               ("results", results)] in
      let json_response := dumps json_res in
      let json_response := Str.encode_utf8 json_response in
      if isinstance_BaseHTTPRequestHandler handler then
        Eff.invoke handler (send_response code) ;;;
        Eff.invoke handler (send_header "Content-Type" "application/json") ;;;
        Eff.invoke handler end_headers ;;;
        Eff.invoke handler (wfile_write json_response) ;;;
        Eff.ret true
      else if isinstance_RequestHandler handler then
        Eff.invoke handler (set_status code) ;;;
        Eff.invoke handler (set_header "Content-Type" "application/json") ;;;
        Eff.invoke handler (write json_response) ;;;
        Eff.invoke handler finish ;;;
        Eff.ret true
      else Eff.ret false
  end.

End Echo.

(* ================================================================== *)
(** ** convert and list_convert *)

(** Outcome of a conversion: the converted value, or the
    [UnicodeDecodeError] that [bytes.decode()] raised on the way. *)
Inductive decoded (A : Type) : Type :=
| Decoded (a : A)
| UnicodeDecodeError.
Arguments Decoded {A} a.
Arguments UnicodeDecodeError {A}.

(** The text type [bytes.decode()] produces, with its equality and the
    decoder ([utf-8], [strict]). *)
Class Codec : Type :=
  { text : Type;
    text_eqb : text -> text -> bool;
    decode : list Byte.byte -> decoded text }.

Section Convert.
Context `{Codec}.

(** The Python values [convert] tells apart: [bytes], [dict], [tuple],
    [list], and values it returns as they are ([str], [int], [None]).
    The items of a [dict] are kept in insertion order. *)
#[local] Set Warnings "-register-all".
Inductive obj : Type :=
| PyBytes (b : list Byte.byte)
| PyStr (s : text)
| PyInt (z : Z)
| PyNone
| PyDict (items : list (obj * obj))
| PyTuple (elts : list obj)
| PyList (elts : list obj).
#[local] Set Warnings "register-all".

Fixpoint bytes_eqb (a b : list Byte.byte) : bool :=
  match a, b with
  | [], [] => true
  | x :: a', y :: b' => Byte.eqb x y && bytes_eqb a' b'
  | _, _ => false
  end.

(** [a == b], as it decides whether two keys of a [dict] are the same
    key. *)
Fixpoint obj_eqb (a b : obj) : bool :=
  let fix elts_eqb (l1 l2 : list obj) : bool :=
    match l1, l2 with
    | [], [] => true
    | x :: l1', y :: l2' => obj_eqb x y && elts_eqb l1' l2'
    | _, _ => false
    end in
  let fix items_eqb (l1 l2 : list (obj * obj)) : bool :=
    match l1, l2 with
    | [], [] => true
    | (k1, v1) :: l1', (k2, v2) :: l2' =>
        obj_eqb k1 k2 && obj_eqb v1 v2 && items_eqb l1' l2'
    | _, _ => false
    end in
  match a, b with
  | PyBytes x, PyBytes y => bytes_eqb x y
  | PyStr x, PyStr y => text_eqb x y
  | PyInt x, PyInt y => Z.eqb x y
  | PyNone, PyNone => true
  | PyDict x, PyDict y => items_eqb x y
  | PyTuple x, PyTuple y => elts_eqb x y
  | PyList x, PyList y => elts_eqb x y
  | _, _ => false
  end.

(** [d[k] = v] on the items of a [dict]. *)
Fixpoint items_set (d : list (obj * obj)) (k v : obj) : list (obj * obj) :=
  match d with
  | [] => [(k, v)]
  | (k', v') :: d' =>
      if obj_eqb k' k then (k', v) :: d' else (k', v') :: items_set d' k v
  end.

(** [dict(pairs)]: the pairs assigned from left to right, starting from
    [acc]. *)
Fixpoint dict_from (acc : list (obj * obj)) (pairs : list (obj * obj))
  : list (obj * obj) :=
  match pairs with
  | [] => acc
  | (k, v) :: rest => dict_from (items_set acc k v) rest
  end.

Definition dict (pairs : list (obj * obj)) : list (obj * obj) :=
  dict_from [] pairs.

(** [map(f, l)] consumed from left to right, up to the first raise. *)
Definition map_decoded {A B : Type} (f : A -> decoded B)
  : list A -> decoded (list B) :=
  fix go (l : list A) : decoded (list B) :=
    match l with
    | [] => Decoded []
    | x :: rest =>
        match f x with
        | Decoded y =>
            match go rest with
            | Decoded ys => Decoded (y :: ys)
            | UnicodeDecodeError => UnicodeDecodeError
            end
        | UnicodeDecodeError => UnicodeDecodeError
        end
    end.

Definition decoded_map {A B : Type} (f : A -> B) (m : decoded A)
  : decoded B :=
  match m with
  | Decoded a => Decoded (f a)
  | UnicodeDecodeError => UnicodeDecodeError
  end.

(** [convert] on one item of a [dict]: the item is a 2-tuple, so its key
    and its value are converted in that order. *)
Definition convert_item (convert : obj -> decoded obj) (kv : obj * obj)
  : decoded (obj * obj) :=
  let (k, v) := kv in
  match convert k with
  | Decoded k' =>
      match convert v with
      | Decoded v' => Decoded (k', v')
      | UnicodeDecodeError => UnicodeDecodeError
      end
  | UnicodeDecodeError => UnicodeDecodeError
  end.

Fixpoint convert (data : obj) : decoded obj :=
  match data with
  | PyBytes b => decoded_map PyStr (decode b)
  | PyDict items =>
      decoded_map (fun pairs => PyDict (dict pairs))
        (map_decoded (convert_item convert) items)
  | PyTuple elts => decoded_map PyTuple (map_decoded convert elts)
  | PyList elts => decoded_map PyList (map_decoded convert elts)
  | _ => Decoded data
  end.


End Convert.

(* ================================================================== *)
(** ** get_config *)

Section Config.
(** The configuration file as it is when a call is made, the parser
    object, and what a fresh [ConfigParser] holds once it has read the
    file. *)
Variables (file ConfigParser : Type).
Variable read : file -> ConfigParser.

(** One call, with the module's global [_CURRENT_CONFIG] before it: the
    value returned, the global after it, and whether the file was read. *)
Definition get_config (CONFIG_FILE : file)
    (_CURRENT_CONFIG : option ConfigParser)
  : ConfigParser * option ConfigParser * bool :=
  match _CURRENT_CONFIG with
  | None =>
      let _CURRENT_CONFIG := read CONFIG_FILE in
      (_CURRENT_CONFIG, Some _CURRENT_CONFIG, true)
  | Some config => (config, Some config, false)
  end.

(** A series of calls, the file being [files[i]] at the time of call
    [i]: the values returned, the global at the end, and the number of
    reads. *)
Fixpoint get_config_calls (files : list file)
    (_CURRENT_CONFIG : option ConfigParser)
  : list ConfigParser * option ConfigParser * nat :=
  match files with
  | [] => ([], _CURRENT_CONFIG, 0)
  | f :: rest =>
      let '(config, g, was_read) := get_config f _CURRENT_CONFIG in
      let '(configs, g', reads) := get_config_calls rest g in
      (config :: configs, g', (if was_read then 1 else 0) + reads)
  end.

End Config.

(* ================================================================== *)
(** ** chownroot and ch_dir *)

(** What the two functions ask of the system: the answers of
    [os.geteuid()] and [os.path.exists(path)]. *)
Record os_env : Type := mkOsEnv
  { geteuid : Z; path_exists : string -> bool }.

(** The calls they make that act on the system or on the logger. *)
Inductive os_call : Type :=
| os_chown (path : string) (uid gid : Z)
| logger_debug (msg : string)
| os_makedirs (path : string) (mode : Z)
| os_umask (mask : Z)
| os_chdir (path : string).

Section ChDir.
(** The module constant: [True] unless the module runs in test mode. *)
Variable REQUIRE_ROOT : bool.
Variable env : os_env.

(** The calls of [chownroot(path, logger)], in order. *)
Definition chownroot (path : string) : list os_call :=
  if (geteuid env =? 0)%Z then [os_chown path 0 0]
  else if REQUIRE_ROOT then
    [logger_debug
       ("Unable to change ownership to root for file: " ++ path)%string]
  else [].

(** The calls of [ch_dir(path, logger)], in order; [0o700] is 448 and
    [0o077] is 63. *)
Definition ch_dir (path : string) : list os_call :=
  (if negb (path_exists env path)
   then os_makedirs path 448 :: chownroot path
   else [])
  ++ [os_umask 63; os_chdir path].

(** The calls that are made when [raises] tells which call raises: the
    planned calls up to the first that raises, that one included. *)
Fixpoint attempted (raises : os_call -> bool) (plan : list os_call)
  : list os_call :=
  match plan with
  | [] => []
  | c :: rest => if raises c then [c] else c :: attempted raises rest
  end.

End ChDir.

(* ================================================================== *)
(** ** The library modules, as CPython 3.11 implements them

    Executable instances of the interfaces above, used to run the
    module's functions on concrete requests.  Characters are taken as
    code points below 256; on that range [_checknetloc] never rejects a
    netloc and is left out.  A [%XX] escape yields the character with
    code [XX]: for escapes from [%80] up CPython decodes the escaped
    bytes as UTF-8 instead, and agrees below. *)

Module CPython.

Definition in_range (lo hi c : ascii) : bool :=
  (nat_of_ascii lo <=? nat_of_ascii c) && (nat_of_ascii c <=? nat_of_ascii hi).

Definition isdigit (c : ascii) : bool := in_range "0" "9" c.

(** [c in scheme_chars]. *)
Definition is_scheme_char (c : ascii) : bool :=
  in_range "a" "z" c || in_range "A" "Z" c || isdigit c
  || Ascii.eqb c "+" || Ascii.eqb c "-" || Ascii.eqb c ".".

Fixpoint all (p : ascii -> bool) (s : string) : bool :=
  match s with
  | EmptyString => true
  | String c s' => p c && all p s'
  end.

Definition lower_char (c : ascii) : ascii :=
  if in_range "A" "Z" c then ascii_of_nat (nat_of_ascii c + 32) else c.

Fixpoint lower (s : string) : string :=
  match s with
  | EmptyString => EmptyString
  | String c s' => String (lower_char c) (lower s')
  end.

(** The text up to the first of [/], [?], [#], and the text from there. *)
Fixpoint until_delim (s : string) : string * string :=
  match s with
  | EmptyString => (EmptyString, EmptyString)
  | String c s' =>
      if Ascii.eqb c "/" || Ascii.eqb c "?" || Ascii.eqb c "#"
      then (EmptyString, s)
      else let (h, t) := until_delim s' in (String c h, t)
  end.

(** [_splitnetloc(url, 2)]. *)
Definition splitnetloc (url : string) : string * string :=
  until_delim (substring 2 (String.length url - 2) url).

(** [c in '0123456789abcdefABCDEF']. *)
Definition is_hex (c : ascii) : bool :=
  isdigit c || in_range "a" "f" c || in_range "A" "F" c.

(** [int(digits)] for decimal digits. *)
Fixpoint decimal (acc : N) (digits : string) : N :=
  match digits with
  | EmptyString => acc
  | String c d => decimal (10 * acc + (N_of_ascii c - 48))%N d
  end.

(** [ipaddress.IPv4Address._parse_octet] returns. *)
Definition octet_ok (octet : string) : bool :=
  negb (String.eqb octet "")
  && all isdigit octet
  && (String.length octet <=? 3)
  && (String.eqb octet "0" || negb (String.eqb (substring 0 1 octet) "0"))
  && (decimal 0 octet <=? 255)%N.

(** [ipaddress.IPv4Address(s)] returns. *)
Definition ipv4_ok (s : string) : bool :=
  negb (Str.contains s "/")
  && negb (String.eqb s "")
  && (length (Str.split s ".") =? 4)
  && forallb octet_ok (Str.split s ".").

(** [ipaddress.IPv6Address._parse_hextet] returns. *)
Definition hextet_ok (hextet : string) : bool :=
  all is_hex hextet
  && (String.length hextet <=? 4)
  && negb (String.eqb hextet "").

(** The positions from [i] on, the last one left out, at which a part is
    empty. *)
Fixpoint inner_empty (i : nat) (parts : list string) : list nat :=
  match parts with
  | [] | [_] => []
  | x :: rest =>
      if String.eqb x "" then i :: inner_empty (S i) rest
      else inner_empty (S i) rest
  end.

(** [ipaddress.IPv6Address._ip_int_from_string] returns. *)
Definition ipv6_parts_ok (parts : list string) : bool :=
  let n := length parts in
  if 9 <? n then false
  else
    match inner_empty 1 (tl parts) with
    | _ :: _ :: _ => false                      (* more than one [::] *)
    | [skip_index] =>
        let parts_hi := skip_index in
        let parts_lo := n - skip_index - 1 in
        let lead := String.eqb (nth 0 parts "") "" in
        let trail := String.eqb (last parts "") "" in
        let parts_hi' := if lead then parts_hi - 1 else parts_hi in
        let parts_lo' := if trail then parts_lo - 1 else parts_lo in
        if lead && negb (parts_hi' =? 0) then false
        else if trail && negb (parts_lo' =? 0) then false
        else if 8 - (parts_hi' + parts_lo') <? 1 then false
        else forallb hextet_ok (firstn parts_hi' parts)
             && forallb hextet_ok (skipn (n - parts_lo') parts)
    | [] =>
        (n =? 8)
        && negb (String.eqb (nth 0 parts "") "")
        && negb (String.eqb (last parts "") "")
        && forallb hextet_ok parts
    end.

Definition ipv6_addr_ok (ip_str : string) : bool :=
  if String.eqb ip_str "" then false
  else
    let parts := Str.split ip_str ":" in
    if length parts <? 3 then false
    else if Str.contains (last parts "") "." then
      (* an IPv4-style suffix stands for two hextets *)
      ipv4_ok (last parts "") && ipv6_parts_ok (removelast parts ++ ["0"; "0"])
    else ipv6_parts_ok parts.

(** [ipaddress.IPv6Address(s)] returns: the scope id, when there is one,
    is not empty and holds no percent sign. *)
Definition ipv6_ok (s : string) : bool :=
  if Str.contains s "/" then false
  else
    match Str.split1 s "%" with
    | (addr, Some scope_id) =>
        if String.eqb scope_id "" || Str.contains scope_id "%" then false
        else ipv6_addr_ok addr
    | (addr, None) => ipv6_addr_ok addr
    end.

(** The hostname matches [v], hex digits, a dot, and one character or
    more that is no newline. *)
Fixpoint after_hex (seen : bool) (s : string) : bool :=
  match s with
  | EmptyString => false
  | String c s' =>
      if is_hex c then after_hex true s'
      else seen && Ascii.eqb c "."
           && negb (String.eqb s' "")
           && negb (Str.contains s' (ascii_of_nat 10))
  end.

(** [_check_bracketed_host(hostname)] returns. *)
Definition bracketed_host_ok (hostname : string) : bool :=
  match hostname with
  | String "v" rest => after_hex false rest
  | _ => negb (ipv4_ok hostname) && ipv6_ok hostname
  end.

(** [s.rpartition(c)[2]]: what follows the last [c]. *)
Fixpoint after_last (s : string) (c : ascii) : string :=
  match s with
  | EmptyString => EmptyString
  | String a s' =>
      if Str.contains s' c then after_last s' c
      else if Ascii.eqb a c then s' else s
  end.

(** [_check_bracketed_netloc(netloc)] returns. *)
Definition bracketed_netloc_ok (netloc : string) : bool :=
  let hostname_and_port := after_last netloc "@" in
  match Str.split1 hostname_and_port "[" with
  | (before_bracket, Some bracketed) =>
      if negb (String.eqb before_bracket "") then false
      else
        let (hostname, port) :=
          match Str.split1 bracketed "]" with
          | (h, Some port) => (h, port)
          | (h, None) => (h, EmptyString)
          end in
        if negb (String.eqb port "")
           && negb (String.eqb (substring 0 1 port) ":")
        then false
        else bracketed_host_ok hostname
  | (_, None) =>
      bracketed_host_ok (fst (Str.split1 hostname_and_port ":"))
  end.

(** [urlsplit] from [if url[:2] == '//'] on. *)
Definition split_components (scheme url : string) : result SplitResult :=
  let (netloc, url) :=
    if String.eqb (substring 0 2 url) "//" then splitnetloc url
    else (EmptyString, url) in
  if (Str.contains netloc "[" && negb (Str.contains netloc "]"))
     || (Str.contains netloc "]" && negb (Str.contains netloc "["))
  then Raise ValueError                      (* Invalid IPv6 URL *)
  else if Str.contains netloc "[" && Str.contains netloc "]"
          && negb (bracketed_netloc_ok netloc)
  then Raise ValueError
  else
    let (url, fragment) :=
      match Str.split1 url "#" with
      | (u, Some f) => (u, f)
      | (u, None) => (u, EmptyString)
      end in
    let (url, query) :=
      match Str.split1 url "?" with
      | (u, Some q) => (u, q)
      | (u, None) => (u, EmptyString)
      end in
    Ok (mkSplitResult scheme netloc url query fragment).

(** [url.lstrip(_WHATWG_C0_CONTROL_OR_SPACE)]: the leading characters up
    to the space are dropped. *)
Fixpoint lstrip_c0 (s : string) : string :=
  match s with
  | String c s' => if nat_of_ascii c <=? 32 then lstrip_c0 s' else s
  | EmptyString => EmptyString
  end.

(** The tab, carriage return and line feed characters are removed. *)
Fixpoint remove_unsafe (s : string) : string :=
  match s with
  | EmptyString => EmptyString
  | String c s' =>
      if (nat_of_ascii c =? 9) || (nat_of_ascii c =? 13)
         || (nat_of_ascii c =? 10)
      then remove_unsafe s'
      else String c (remove_unsafe s')
  end.

(** [c.isascii() and c.isalpha()]. *)
Definition is_ascii_alpha (c : ascii) : bool :=
  in_range "a" "z" c || in_range "A" "Z" c.

Definition urlsplit (url : string) : result SplitResult :=
  let url := remove_unsafe (lstrip_c0 url) in
  match Str.split1 url ":" with
  | (String c before, Some rest) =>
      if is_ascii_alpha c && all is_scheme_char (String c before)
      then split_components (lower (String c before)) rest
      else split_components "" url
  | (_, _) => split_components "" url
  end.

Definition hexval (c : ascii) : option nat :=
  if isdigit c then Some (nat_of_ascii c - 48)
  else if in_range "a" "f" c then Some (nat_of_ascii c - 87)
  else if in_range "A" "F" c then Some (nat_of_ascii c - 55)
  else None.

(** [unquote]: a [%] not followed by two hex digits stays as it is. *)
Fixpoint unquote (s : string) : string :=
  match s with
  | EmptyString => EmptyString
  | String c rest =>
      if Ascii.eqb c "%" then
        match rest with
        | String a (String b s') =>
            match hexval a, hexval b with
            | Some x, Some y => String (ascii_of_nat (16 * x + y)) (unquote s')
            | _, _ => String c (unquote rest)
            end
        | _ => String c (unquote rest)
        end
      else String c (unquote rest)
  end.

(** The loop of [parse_qsl] over the fields, with
    [keep_blank_values=False]. *)
Fixpoint parse_fields (strict_parsing : bool) (fields : list string)
  : result (list (string * string)) :=
  match fields with
  | [] => Ok []
  | name_value :: rest =>
      if String.eqb name_value "" && negb strict_parsing
      then parse_fields strict_parsing rest
      else
        match Str.split1 name_value "=" with
        | (_, None) =>
            if strict_parsing then Raise ValueError   (* bad query field *)
            else parse_fields strict_parsing rest
        | (n, Some v) =>
            r <- parse_fields strict_parsing rest ;;
            if String.eqb v "" then Ok r
            else Ok ((unquote (Str.replace n "+" " "),
                      unquote (Str.replace v "+" " ")) :: r)
        end
  end.

(** [parse_qsl(qs, strict_parsing=...)]: the fields are separated by
    [&]; an empty query has no field. *)
Definition parse_qsl (qs : string) (strict_parsing : bool)
  : result (list (string * string)) :=
  parse_fields strict_parsing
    (if String.eqb qs "" then [] else Str.split qs "&").

End CPython.

#[export] Instance cpython_urllib : UrllibParse :=
  { urlsplit := CPython.urlsplit;
    parse_qsl := fun qs => CPython.parse_qsl qs false }.

(** [http.client.responses] and [json.dumps] with its defaults:
    non-ASCII and control characters escaped, a comma and a space between
    items, a colon and a space after a key. *)
Module CPythonHttp.

Definition table : list (Z * string) :=
  [ (100, "Continue"); (101, "Switching Protocols"); (102, "Processing");
    (200, "OK"); (201, "Created"); (202, "Accepted");
    (203, "Non-Authoritative Information"); (204, "No Content");
    (205, "Reset Content"); (206, "Partial Content");
    (207, "Multi-Status"); (208, "Already Reported"); (226, "IM Used");
    (300, "Multiple Choices"); (301, "Moved Permanently"); (302, "Found");
    (303, "See Other"); (304, "Not Modified"); (305, "Use Proxy");
    (307, "Temporary Redirect"); (308, "Permanent Redirect");
    (400, "Bad Request"); (401, "Unauthorized"); (402, "Payment Required");
    (403, "Forbidden"); (404, "Not Found"); (405, "Method Not Allowed");
    (406, "Not Acceptable"); (407, "Proxy Authentication Required");
    (408, "Request Timeout"); (409, "Conflict"); (410, "Gone");
    (411, "Length Required"); (412, "Precondition Failed");
    (413, "Request Entity Too Large"); (414, "Request-URI Too Long");
    (415, "Unsupported Media Type");
    (416, "Requested Range Not Satisfiable"); (417, "Expectation Failed");
    (421, "Misdirected Request"); (422, "Unprocessable Entity");
    (423, "Locked"); (424, "Failed Dependency"); (426, "Upgrade Required");
    (428, "Precondition Required"); (429, "Too Many Requests");
    (431, "Request Header Fields Too Large");
    (451, "Unavailable For Legal Reasons");
    (500, "Internal Server Error"); (501, "Not Implemented");
    (502, "Bad Gateway"); (503, "Service Unavailable");
    (504, "Gateway Timeout"); (505, "HTTP Version Not Supported");
    (506, "Variant Also Negotiates"); (507, "Insufficient Storage");
    (508, "Loop Detected"); (510, "Not Extended");
    (511, "Network Authentication Required") ]%Z.

Fixpoint lookup (t : list (Z * string)) (code : Z) : option string :=
  match t with
  | [] => None
  | (c, phrase) :: t' => if (c =? code)%Z then Some phrase else lookup t' code
  end.

Definition responses (code : Z) : option string := lookup table code.

Definition hexdigit (n : nat) : ascii :=
  if n <? 10 then ascii_of_nat (48 + n) else ascii_of_nat (87 + n).

Definition dquote : ascii := ascii_of_nat 34.
Definition backslash : ascii := ascii_of_nat 92.

(** One character of a string literal, escaped as [ensure_ascii] does. *)
Definition escape_char (c : ascii) : string :=
  let n := nat_of_ascii c in
  if n =? 34 then String backslash (String dquote EmptyString)
  else if n =? 92 then String backslash (String backslash EmptyString)
  else if n =? 8 then "\b"
  else if n =? 9 then "\t"
  else if n =? 10 then "\n"
  else if n =? 12 then "\f"
  else if n =? 13 then "\r"
  else if (32 <=? n) && (n <=? 126) then String c EmptyString
  else String backslash (String "u" (String "0" (String "0"
         (String (hexdigit (n / 16))
            (String (hexdigit (n mod 16)) EmptyString))))).

Fixpoint escape (s : string) : string :=
  match s with
  | EmptyString => EmptyString
  | String c s' => (escape_char c ++ escape s')%string
  end.

Definition quote (s : string) : string :=
  (String dquote (escape s) ++ String dquote EmptyString)%string.

Fixpoint dumps (j : json) : string :=
  match j with
  | JNull => "null"
  | JBool true => "true"
  | JBool false => "false"
  | JInt z => NilZero.string_of_int (Z.to_int z)
  | JStr s => quote s
  | JList l =>
      let fix elements (l : list json) : string :=
        match l with
        | [] => EmptyString
        | x :: l' =>
            match l' with
            | [] => dumps x
            | _ => (dumps x ++ ", " ++ elements l')%string
            end
        end in
      ("[" ++ elements l ++ "]")%string
  | JDict d =>
      let fix members (d : list (string * json)) : string :=
        match d with
        | [] => EmptyString
        | (k, x) :: d' =>
            match d' with
            | [] => (quote k ++ ": " ++ dumps x)%string
            | _ => (quote k ++ ": " ++ dumps x ++ ", " ++ members d')%string
            end
        end in
      ("{" ++ members d ++ "}")%string
  end.

End CPythonHttp.

#[export] Instance cpython_http : HttpClient :=
  { responses := CPythonHttp.responses }.

#[export] Instance cpython_json : SimpleJson :=
  { dumps := CPythonHttp.dumps }.

(** [re.compile] on a fragment of the pattern language, as CPython 3.11
    parses it: literal characters, [.], the anchors, alternation, groups,
    and the repetition operators (star, plus, question mark, counts in
    braces) with their lazy and possessive forms.  [in_fragment] tells
    whether a pattern lies in the fragment: it has no bracket set, no
    backslash and no group extension, and is short enough for the limits
    on recursion and on the digits of a number to stay out of reach.
    Outside the fragment the answers of [compile] mean nothing. *)
Module SreFragment.

Inductive mode : Type := Greedy | Lazy | Possessive.

Inductive regex : Type :=
| Empty
| Lit (c : ascii)
| AnyChar
| At (c : ascii)
| Cat (r1 r2 : regex)
| Alt (r1 r2 : regex)
| Group (r : regex)
| Repeat (lo : N) (hi : option N) (m : mode) (r : regex).

(** The largest repetition count, [MAXREPEAT]. *)
Definition MAXREPEAT : N := 4294967295.

(** A subpattern under construction: the branches closed by a bar, the
    items of the current branch but the last, and the last item. *)
Record frame : Type := mkFrame
  { branches : option regex; items : regex; last_item : option regex }.

Definition new_frame : frame := mkFrame None Empty None.

Definition branch_of (f : frame) : regex :=
  match last_item f with
  | Some r => Cat (items f) r
  | None => items f
  end.

Definition close (f : frame) : regex :=
  match branches f with
  | Some b => Alt b (branch_of f)
  | None => branch_of f
  end.

Definition push_item (f : frame) (r : regex) : frame :=
  mkFrame (branches f) (branch_of f) (Some r).

Definition is_digit (c : ascii) : bool :=
  (48 <=? nat_of_ascii c) && (nat_of_ascii c <=? 57).

(** The digits a text starts with, and the rest. *)
Fixpoint take_digits (s : string) : string * string :=
  match s with
  | String c s' =>
      if is_digit c
      then let (d, r) := take_digits s' in (String c d, r)
      else (EmptyString, s)
  | EmptyString => (EmptyString, EmptyString)
  end.

(** [int(digits)]. *)
Fixpoint int_of (acc : N) (digits : string) : N :=
  match digits with
  | EmptyString => acc
  | String c d => int_of (10 * acc + (N_of_ascii c - 48))%N d
  end.

(** What follows an opening brace. *)
Inductive braces : Type :=
| NotRepeat                                   (* the brace is a literal *)
| Bounds (lo : N) (hi : option N) (len : nat) (* a count, [len] characters *)
| TooLarge                                    (* OverflowError *)
| MinGreater.                                 (* min repeat greater than max *)

Definition read_braces (s : string) : braces :=
  match s with
  | String "}" _ => NotRepeat
  | _ =>
      let (lo, r1) := take_digits s in
      let '(hi, r2, between) :=
        match r1 with
        | String "," r =>
            let (hi, r2) := take_digits r in (hi, r2, 1 + String.length hi)
        | _ => (lo, r1, 0)
        end in
      match r2 with
      | String "}" _ =>
          let min := int_of 0 lo in
          let max := int_of 0 hi in
          if negb (String.eqb lo "") && (MAXREPEAT <=? min)%N then TooLarge
          else if String.eqb hi "" then
            Bounds min None (String.length lo + between + 1)
          else if (MAXREPEAT <=? max)%N then TooLarge
          else if (max <? min)%N then MinGreater
          else Bounds min (Some max) (String.length lo + between + 1)
      | _ => NotRepeat
      end
  end.

(** A repetition with the given bounds, met after the items of [f]. *)
Definition apply_repeat (lo : N) (hi : option N) (f : frame)
  : compiled frame :=
  match last_item f with
  | None | Some (At _) => ReError "nothing to repeat"
  | Some (Repeat _ _ _ _) => ReError "multiple repeat"
  | Some r =>
      Compiled (mkFrame (branches f) (items f) (Some (Repeat lo hi Greedy r)))
  end.

(** A star, plus or question mark met after the items of [f]: right
    after a repetition, a question mark makes it lazy and a plus makes it
    possessive. *)
Definition apply_operator (op : ascii) (f : frame) : compiled frame :=
  match last_item f with
  | Some (Repeat lo hi Greedy r) =>
      if Ascii.eqb op "?"
      then Compiled (mkFrame (branches f) (items f)
                       (Some (Repeat lo hi Lazy r)))
      else if Ascii.eqb op "+"
      then Compiled (mkFrame (branches f) (items f)
                       (Some (Repeat lo hi Possessive r)))
      else ReError "multiple repeat"
  | _ =>
      if Ascii.eqb op "?" then apply_repeat 0 (Some 1%N) f
      else if Ascii.eqb op "*" then apply_repeat 0 None f
      else apply_repeat 1 None f
  end.

(** One pass over the pattern; [skip] counts the characters already read
    as part of a count in braces, [outer] holds the frames of the groups
    that are open around the current one. *)
Fixpoint scan (s : string) (skip : nat) (cur : frame) (outer : list frame)
  : compiled regex :=
  match s with
  | EmptyString =>
      match outer with
      | [] => Compiled (close cur)
      | _ :: _ => ReError "missing ), unterminated subpattern"
      end
  | String c s' =>
      match skip with
      | S skip' => scan s' skip' cur outer
      | O =>
          if Ascii.eqb c "(" then scan s' 0 new_frame (cur :: outer)
          else if Ascii.eqb c ")" then
            match outer with
            | [] => ReError "unbalanced parenthesis"
            | parent :: outer' =>
                scan s' 0 (push_item parent (Group (close cur))) outer'
            end
          else if Ascii.eqb c "|" then
            scan s' 0 (mkFrame (Some (close cur)) Empty None) outer
          else if Ascii.eqb c "*" || Ascii.eqb c "+" || Ascii.eqb c "?" then
            match apply_operator c cur with
            | Compiled cur' => scan s' 0 cur' outer
            | ReError msg => ReError msg
            | Raised e => Raised e
            end
          else if Ascii.eqb c "{" then
            match read_braces s' with
            | NotRepeat => scan s' 0 (push_item cur (Lit c)) outer
            | TooLarge => Raised OverflowError
            | MinGreater => ReError "min repeat greater than max repeat"
            | Bounds lo hi len =>
                match apply_repeat lo hi cur with
                | Compiled cur' => scan s' len cur' outer
                | ReError msg => ReError msg
                | Raised e => Raised e
                end
            end
          else if Ascii.eqb c "." then scan s' 0 (push_item cur AnyChar) outer
          else if Ascii.eqb c "^" || Ascii.eqb c "$" then
            scan s' 0 (push_item cur (At c)) outer
          else scan s' 0 (push_item cur (Lit c)) outer
      end
  end.

Definition compile (pattern : string) : compiled regex :=
  scan pattern 0 new_frame [].

(** No group extension: no opening parenthesis is followed by a question
    mark. *)
Fixpoint no_extension (s : string) : bool :=
  match s with
  | String "(" (String "?" _) => false
  | String _ s' => no_extension s'
  | EmptyString => true
  end.

Definition in_fragment (pattern : string) : bool :=
  (String.length pattern <=? 200)
  && negb (Str.contains pattern "[")
  && negb (Str.contains pattern (ascii_of_nat 92))
  && no_extension pattern.

End SreFragment.

#[export] Instance sre_fragment : ReModule :=
  { Pattern := SreFragment.regex;
    re_compile := SreFragment.compile }.

(** [bytes.decode()] with its defaults, [utf-8] and [strict].  A decoded
    text is held as its UTF-8 encoding, so decoding is checking that the
    bytes are well-formed UTF-8: no overlong form, no surrogate, nothing
    above U+10FFFF. *)
Module Utf8.

Definition between (lo hi : N) (b : Byte.byte) : bool :=
  ((lo <=? Byte.to_N b) && (Byte.to_N b <=? hi))%N.

(** A continuation byte. *)
Definition cont (b : Byte.byte) : bool := between 128 191 b.

Fixpoint well_formed (bs : list Byte.byte) : bool :=
  match bs with
  | [] => true
  | b0 :: r0 =>
      if between 0 127 b0 then well_formed r0
      else
        match r0 with
        | [] => false
        | b1 :: r1 =>
            if between 194 223 b0 then cont b1 && well_formed r1
            else
              match r1 with
              | [] => false
              | b2 :: r2 =>
                  if between 224 224 b0
                  then between 160 191 b1 && cont b2 && well_formed r2
                  else if between 225 236 b0 || between 238 239 b0
                  then cont b1 && cont b2 && well_formed r2
                  else if between 237 237 b0
                  then between 128 159 b1 && cont b2 && well_formed r2
                  else
                    match r2 with
                    | [] => false
                    | b3 :: r3 =>
                        if between 240 240 b0
                        then between 144 191 b1 && cont b2 && cont b3
                             && well_formed r3
                        else if between 241 243 b0
                        then cont b1 && cont b2 && cont b3
                             && well_formed r3
                        else if between 244 244 b0
                        then between 128 143 b1 && cont b2 && cont b3
                             && well_formed r3
                        else false
                    end
              end
        end
  end.

Definition decode (bs : list Byte.byte) : decoded (list Byte.byte) :=
  if well_formed bs then Decoded bs else UnicodeDecodeError.

Fixpoint eqb (a b : list Byte.byte) : bool :=
  match a, b with
  | [], [] => true
  | x :: a', y :: b' => Byte.eqb x y && eqb a' b'
  | _, _ => false
  end.

(** The bytes of an ASCII literal. *)
Definition of_string (s : string) : list Byte.byte := list_byte_of_string s.

End Utf8.

#[export] Instance utf8_codec : Codec :=
  { text := list Byte.byte;
    text_eqb := Utf8.eqb;
    decode := Utf8.decode }.


(* ================================================================== *)
(** * Properties *)

(** ** Dictionaries *)

Unset Implicit Arguments.

Section DictFacts.
Context {V : Type}.
Implicit Types (d : Dict.t V) (k : string) (v : V).

Lemma get_setitem_eq d k v : Dict.get (Dict.setitem d k v) k = Some v.
Proof.
  induction d as [|[k' v'] d IH]; simpl.
  - now rewrite String.eqb_refl.
  - destruct (String.eqb k' k) eqn:E; simpl; rewrite E; auto.
Qed.

Lemma get_setitem_neq d k k' v :
  k <> k' -> Dict.get (Dict.setitem d k v) k' = Dict.get d k'.
Proof.
  intros Hne. induction d as [|[k0 v0] d IH]; simpl.
  - destruct (String.eqb k k') eqn:E; auto.
    apply String.eqb_eq in E. contradiction.
  - destruct (String.eqb k0 k) eqn:E; simpl.
    + apply String.eqb_eq in E. subst k0.
      destruct (String.eqb k k') eqn:E'; auto.
      apply String.eqb_eq in E'. contradiction.
    + now rewrite IH.
Qed.

Lemma get_None_notin d k : Dict.get d k = None <-> ~ In k (Dict.keys d).
Proof.
  induction d as [|[k0 v0] d IH]; simpl.
  - tauto.
  - destruct (String.eqb k0 k) eqn:E.
    + apply String.eqb_eq in E. split; [discriminate | tauto].
    + apply String.eqb_neq in E. rewrite IH. tauto.
Qed.

Lemma setitem_fresh d k v :
  ~ In k (Dict.keys d) -> Dict.setitem d k v = d ++ [(k, v)].
Proof.
  induction d as [|[k0 v0] d IH]; simpl; intros Hn; auto.
  destruct (String.eqb k0 k) eqn:E.
  - apply String.eqb_eq in E. tauto.
  - rewrite IH; tauto.
Qed.

Lemma keys_setitem_present d k v :
  In k (Dict.keys d) -> Dict.keys (Dict.setitem d k v) = Dict.keys d.
Proof.
  induction d as [|[k0 v0] d IH]; simpl; intros Hin; [tauto|].
  destruct (String.eqb k0 k) eqn:E; simpl; auto.
  apply String.eqb_neq in E. f_equal. apply IH. tauto.
Qed.

Lemma length_setitem d k v :
  length (Dict.setitem d k v) <= S (length d).
Proof.
  induction d as [|[k0 v0] d IH]; simpl; auto.
  destruct (String.eqb k0 k); simpl; lia.
Qed.

Lemma in_keys_setitem d k v k' :
  In k' (Dict.keys (Dict.setitem d k v)) <-> k' = k \/ In k' (Dict.keys d).
Proof.
  induction d as [|[k0 v0] d IH]; simpl.
  - intuition.
  - destruct (String.eqb k0 k) eqn:E; simpl.
    + apply String.eqb_eq in E. subst. intuition.
    + rewrite IH. intuition.
Qed.

(** Assigning keeps the keys unique. *)
Lemma NoDup_keys_setitem d k v :
  NoDup (Dict.keys d) -> NoDup (Dict.keys (Dict.setitem d k v)).
Proof.
  induction d as [|[k0 v0] d IH]; simpl; intros Hnd.
  - constructor; [intros [] | constructor].
  - inversion Hnd as [|? ? Hn Hd]; subst.
    destruct (String.eqb k0 k) eqn:E; simpl.
    + constructor; auto.
    + constructor; auto.
      apply String.eqb_neq in E.
      fold (Dict.keys (Dict.setitem d k v)).
      rewrite in_keys_setitem. intros [->|]; tauto.
Qed.

Lemma NoDup_keys_update pairs : forall d,
  NoDup (Dict.keys d) -> NoDup (Dict.keys (Dict.update d pairs)).
Proof.
  induction pairs as [|[k v] pairs IH]; simpl; intros d Hnd; auto.
  apply IH. now apply NoDup_keys_setitem.
Qed.

Lemma get_None_notin_iff d k : Dict.get d k <> None <-> In k (Dict.keys d).
Proof.
  rewrite get_None_notin.
  destruct (in_dec string_dec k (Dict.keys d)); tauto.
Qed.

(** Assigning and updating leave the keys already there where they are;
    new keys come after them. *)
Lemma keys_setitem_prefix d k v :
  exists extra, Dict.keys (Dict.setitem d k v) = Dict.keys d ++ extra.
Proof.
  destruct (in_dec string_dec k (Dict.keys d)) as [Hin|Hn].
  - exists []. rewrite app_nil_r. now apply keys_setitem_present.
  - exists [k]. rewrite (setitem_fresh d k v Hn).
    unfold Dict.keys. now rewrite map_app.
Qed.

Lemma keys_update_prefix pairs : forall d,
  exists extra, Dict.keys (Dict.update d pairs) = Dict.keys d ++ extra.
Proof.
  induction pairs as [|[k v] pairs IH]; simpl; intros d.
  - exists []. now rewrite app_nil_r.
  - destruct (IH (Dict.setitem d k v)) as [e2 ->].
    destruct (keys_setitem_prefix d k v) as [e1 ->].
    exists (e1 ++ e2). now rewrite app_assoc.
Qed.

(** After [update], a key of [pairs] holds the last value [pairs] gives
    it, and any other key keeps its value. *)
Lemma get_update pairs : forall d k,
  Dict.get (Dict.update d pairs) k =
  match Dict.last_value pairs k with
  | Some v => Some v
  | None => Dict.get d k
  end.
Proof.
  induction pairs as [|[k0 v0] pairs IH]; simpl; intros d k; auto.
  rewrite IH. destruct (Dict.last_value pairs k); auto.
  destruct (String.eqb k0 k) eqn:E.
  - apply String.eqb_eq in E. subst. apply get_setitem_eq.
  - apply String.eqb_neq in E. now apply get_setitem_neq.
Qed.

Lemma last_value_in pairs k :
  In k (map fst pairs) -> exists v, Dict.last_value pairs k = Some v.
Proof.
  induction pairs as [|[k0 v0] pairs IH]; simpl; [tauto|].
  intros [->|Hin].
  - destruct (Dict.last_value pairs k); eauto.
    rewrite String.eqb_refl. eauto.
  - destruct (IH Hin) as [w ->]. eauto.
Qed.

End DictFacts.

(** Pairwise distinct strings, decided. *)
Fixpoint distinct (l : list string) : bool :=
  match l with
  | [] => true
  | x :: rest => negb (existsb (String.eqb x) rest) && distinct rest
  end.

Lemma distinct_NoDup l : distinct l = true <-> NoDup l.
Proof.
  induction l as [|x l IH]; simpl.
  - split; [constructor | reflexivity].
  - rewrite andb_true_iff, negb_true_iff, IH. split.
    + intros [Hx Hd]. constructor; auto.
      intros Hin. assert (existsb (String.eqb x) l = true) as E.
      { apply existsb_exists. exists x. split; auto. apply String.eqb_refl. }
      congruence.
    + intros Hnd. inversion Hnd as [|? ? Hn Hd]; subst. split; auto.
      destruct (existsb (String.eqb x) l) eqn:E; auto.
      apply existsb_exists in E. destruct E as [y [Hin Hy]].
      apply String.eqb_eq in Hy. subst. contradiction.
Qed.

(** ** list_to_dict *)

(** Induction over a token list two tokens at a time. *)
Lemma pair_ind (P : list string -> Prop) :
  P [] -> (forall k, P [k]) ->
  (forall k v rest, P rest -> P (k :: v :: rest)) ->
  forall l, P l.
Proof.
  intros H0 H1 H2 l.
  assert (P l /\ forall x, P (x :: l)) as [Hl _]; [|exact Hl].
  induction l as [|y l [IHl IHx]]; split; auto.
Qed.

(** The pairs a token list stands for, before any key is merged. *)
Fixpoint pairs_of (tokens : list string) : pdict :=
  match tokens with
  | [] => []
  | [k] => [(k, None)]
  | k :: v :: rest => (k, Some v) :: pairs_of rest
  end.

Lemma skipn_cons_nth (l : list string) i :
  i < length l -> skipn i l = nth i l "" :: skipn (S i) l.
Proof.
  revert i. induction l as [|x l IH]; simpl; intros i Hi; [lia|].
  destruct i; simpl; auto. apply IH. lia.
Qed.

(** [length list - i] iterations finish the loop, which then has grouped
    the tokens from position [i] on. *)
Lemma list_to_dict_loop_pair_up fuel : forall l i acc,
  length l - i <= fuel ->
  list_to_dict_loop fuel l i acc = pair_up (skipn i l) acc.
Proof.
  induction fuel as [|fuel IH]; intros l i acc Hfuel; simpl.
  - rewrite skipn_all2 by lia. reflexivity.
  - destruct (i <? length l) eqn:Hi.
    + apply Nat.ltb_lt in Hi.
      rewrite (skipn_cons_nth l i Hi).
      replace (i + 2) with (S (S i)) by lia.
      replace (i + 1) with (S i) by lia.
      rewrite IH by lia.
      destruct (S i <? length l) eqn:Hi1.
      * apply Nat.ltb_lt in Hi1. rewrite (skipn_cons_nth l (S i) Hi1). reflexivity.
      * apply Nat.ltb_ge in Hi1.
        rewrite (skipn_all2 l Hi1).
        rewrite skipn_all2 by lia. reflexivity.
    + apply Nat.ltb_ge in Hi. rewrite skipn_all2 by lia. reflexivity.
Qed.

Lemma list_to_dict_pair_up l : list_to_dict l = pair_up l Dict.empty.
Proof.
  unfold list_to_dict. rewrite list_to_dict_loop_pair_up by lia.
  reflexivity.
Qed.

Lemma length_key_tokens l : length (key_tokens l) = (length l + 1) / 2.
Proof.
  induction l as [| k | k v rest IH] using pair_ind; auto.
  cbn [key_tokens length]. rewrite IH.
  replace (S (S (length rest)) + 1) with (length rest + 1 + 1 * 2) by lia.
  rewrite Nat.div_add by lia. lia.
Qed.

Lemma keys_pairs_of l : Dict.keys (pairs_of l) = key_tokens l.
Proof.
  induction l as [| k | k v rest IH] using pair_ind; auto.
  cbn [pairs_of key_tokens]. unfold Dict.keys in *. simpl. now rewrite IH.
Qed.

Lemma flatten_pairs_of l : flatten (pairs_of l) = l.
Proof.
  induction l as [| k | k v rest IH] using pair_ind; auto.
  cbn [pairs_of flatten]. now rewrite IH.
Qed.

(** With keys that are new and pairwise distinct nothing is overwritten:
    the pairs are appended as they come. *)
Lemma pair_up_fresh l : forall acc,
  NoDup (Dict.keys acc ++ key_tokens l) ->
  pair_up l acc = acc ++ pairs_of l.
Proof.
  induction l as [| k | k v rest IH] using pair_ind; intros acc Hnd.
  - simpl. now rewrite app_nil_r.
  - simpl in *. apply setitem_fresh.
    apply NoDup_remove_2 in Hnd. now rewrite app_nil_r in Hnd.
  - cbn [pair_up pairs_of key_tokens] in *.
    assert (~ In k (Dict.keys acc)) as Hk.
    { apply NoDup_remove_2 in Hnd. intros Hin. apply Hnd.
      apply in_or_app. now left. }
    rewrite (setitem_fresh acc k (Some v) Hk).
    rewrite IH.
    + now rewrite <- app_assoc.
    + unfold Dict.keys in *. rewrite map_app, <- app_assoc. exact Hnd.
Qed.

Lemma list_to_dict_distinct l :
  distinct (key_tokens l) = true -> list_to_dict l = pairs_of l.
Proof.
  intros Hd. rewrite list_to_dict_pair_up.
  apply (pair_up_fresh l Dict.empty).
  simpl. now apply distinct_NoDup.
Qed.

Lemma length_pair_up l : forall acc,
  length (pair_up l acc) <= length acc + length (key_tokens l).
Proof.
  induction l as [| k | k v rest IH] using pair_ind; intros acc.
  - simpl. lia.
  - simpl. pose proof (length_setitem acc k None). lia.
  - cbn [pair_up key_tokens length].
    pose proof (IH (Dict.setitem acc k (Some v))).
    pose proof (length_setitem acc k (Some v)). lia.
Qed.

Lemma NoDup_keys_pair_up l : forall acc,
  NoDup (Dict.keys acc) -> NoDup (Dict.keys (pair_up l acc)).
Proof.
  induction l as [| k | k v rest IH] using pair_ind; intros acc Hnd.
  - exact Hnd.
  - simpl. now apply NoDup_keys_setitem.
  - cbn [pair_up]. apply IH. now apply NoDup_keys_setitem.
Qed.

Lemma odd_length_tail (k v : string) rest :
  Nat.odd (length (k :: v :: rest)) = Nat.odd (length rest).
Proof.
  reflexivity.
Qed.

(** On an odd number of tokens the last one ends as a key holding
    [None], whatever was assigned before. *)
Lemma pair_up_odd_last l : forall acc,
  Nat.odd (length l) = true ->
  Dict.get (pair_up l acc) (last l "") = Some None.
Proof.
  induction l as [| k | k v rest IH] using pair_ind; intros acc Hodd.
  - discriminate.
  - simpl. apply get_setitem_eq.
  - rewrite odd_length_tail in Hodd.
    destruct rest as [|x rest]; [discriminate|].
    change (last (k :: v :: x :: rest) "") with (last (x :: rest) "").
    cbn [pair_up]. now apply IH.
Qed.

(** The values of a dictionary are all strings, decided. *)
Definition all_present (d : pdict) : bool :=
  forallb (fun kv => match snd kv with Some _ => true | None => false end) d.

Lemma pairs_of_flatten d : all_present d = true -> pairs_of (flatten d) = d.
Proof.
  induction d as [|[k [v|]] d IH]; simpl; intros Hp; auto; try discriminate.
  now rewrite IH.
Qed.

Lemma key_tokens_flatten d :
  all_present d = true -> key_tokens (flatten d) = Dict.keys d.
Proof.
  intros Hp. rewrite <- (keys_pairs_of (flatten d)).
  now rewrite pairs_of_flatten.
Qed.

Lemma length_flatten d :
  all_present d = true -> length (flatten d) = 2 * length d.
Proof.
  induction d as [|[k [v|]] d IH]; simpl; intros Hp; auto; try discriminate.
  rewrite IH by assumption. lia.
Qed.

(** C4, as stated, fails when a key token is repeated: on the four tokens
    [a 1 a 2] the second assignment overwrites the first, the mapping has
    one entry instead of two, and flattening it gives [a 2]. *)
Lemma list_to_dict_even_repeated_key :
  length ["a"; "1"; "a"; "2"] = 2 * 2
  /\ list_to_dict ["a"; "1"; "a"; "2"] = [("a", Some "2")]
  /\ length (list_to_dict ["a"; "1"; "a"; "2"]) <> 2
  /\ flatten (list_to_dict ["a"; "1"; "a"; "2"]) <> ["a"; "1"; "a"; "2"].
Proof.
  repeat split; try reflexivity; vm_compute; discriminate.
Qed.

(** C4 (amended): for every token sequence [T] of even length [2n] whose
    key tokens (those at even positions) are pairwise distinct,
    [list_to_dict T] has exactly [n] entries, its keys are the key tokens
    in their original order, and flattening it gives [T] back; and for
    every mapping [d] with distinct keys and no absent value,
    [list_to_dict] of its flattening is [d], the flattening having
    [2 * length d] tokens. *)
Theorem list_to_dict_even_distinct (T : list string) (n : nat) (d : pdict) :
  length T = 2 * n ->
  distinct (key_tokens T) = true ->
  distinct (Dict.keys d) = true ->
  all_present d = true ->
  (length (list_to_dict T) = n
   /\ Dict.keys (list_to_dict T) = key_tokens T
   /\ flatten (list_to_dict T) = T)
  /\ (length (flatten d) = 2 * length d
      /\ list_to_dict (flatten d) = d).
Proof.
  intros Hlen HT Hd Hp. split; [split; [|split] | split].
  - rewrite (list_to_dict_distinct T HT).
    rewrite <- (length_map fst). fold (Dict.keys (pairs_of T)).
    rewrite keys_pairs_of, length_key_tokens, Hlen.
    replace (2 * n + 1) with (1 + n * 2) by lia.
    rewrite Nat.div_add by lia. reflexivity.
  - rewrite (list_to_dict_distinct T HT). apply keys_pairs_of.
  - rewrite (list_to_dict_distinct T HT). apply flatten_pairs_of.
  - now apply length_flatten.
  - rewrite list_to_dict_distinct.
    + now apply pairs_of_flatten.
    + now rewrite key_tokens_flatten.
Qed.

Lemma list_to_dict_even_distinct_witness :
  (length (list_to_dict ["agents"; "1234"; "verifier"; "v1"]) = 2
   /\ Dict.keys (list_to_dict ["agents"; "1234"; "verifier"; "v1"])
      = key_tokens ["agents"; "1234"; "verifier"; "v1"]
   /\ flatten (list_to_dict ["agents"; "1234"; "verifier"; "v1"])
      = ["agents"; "1234"; "verifier"; "v1"])
  /\ (length (flatten [("agents", Some "1234"); ("verifier", Some "v1")])
      = 2 * length [("agents", Some "1234"); ("verifier", Some "v1")]
      /\ list_to_dict
           (flatten [("agents", Some "1234"); ("verifier", Some "v1")])
         = [("agents", Some "1234"); ("verifier", Some "v1")]).
Proof.
  apply (list_to_dict_even_distinct
           ["agents"; "1234"; "verifier"; "v1"] 2
           [("agents", Some "1234"); ("verifier", Some "v1")]);
    reflexivity.
Defined.

(** C8, as stated, fails when the last token repeats an earlier key: on
    [a b a] the final assignment overwrites the entry of [a], leaving one
    entry where [ceil(3/2)] is two. *)
Lemma list_to_dict_odd_repeated_key :
  Nat.odd (length ["a"; "b"; "a"]) = true
  /\ list_to_dict ["a"; "b"; "a"] = [("a", None)]
  /\ length (list_to_dict ["a"; "b"; "a"])
     <> (length ["a"; "b"; "a"] + 1) / 2.
Proof.
  repeat split; try reflexivity; vm_compute; discriminate.
Qed.

(** C8 (amended): for every token sequence [T] of odd length,
    [list_to_dict T] maps the final token, as a key, to [None]; it has at
    most [ceil(len/2)] entries, and exactly that many when the key tokens
    are pairwise distinct. *)
Theorem list_to_dict_odd_last_absent (T : list string) :
  Nat.odd (length T) = true ->
  Dict.get (list_to_dict T) (last T "") = Some None
  /\ length (list_to_dict T) <= (length T + 1) / 2
  /\ (distinct (key_tokens T) = true ->
      length (list_to_dict T) = (length T + 1) / 2).
Proof.
  intros Hodd. split; [|split].
  - rewrite list_to_dict_pair_up. now apply pair_up_odd_last.
  - rewrite list_to_dict_pair_up, <- length_key_tokens.
    apply (length_pair_up T Dict.empty).
  - intros HT. rewrite (list_to_dict_distinct T HT).
    rewrite <- (length_map fst). fold (Dict.keys (pairs_of T)).
    now rewrite keys_pairs_of, length_key_tokens.
Qed.

Lemma list_to_dict_odd_last_absent_witness :
  Dict.get (list_to_dict ["agents"; "1234"; "keys"])
    (last ["agents"; "1234"; "keys"] "") = Some None
  /\ length (list_to_dict ["agents"; "1234"; "keys"])
     <= (length ["agents"; "1234"; "keys"] + 1) / 2
  /\ (distinct (key_tokens ["agents"; "1234"; "keys"]) = true ->
      length (list_to_dict ["agents"; "1234"; "keys"])
      = (length ["agents"; "1234"; "keys"] + 1) / 2).
Proof.
  apply (list_to_dict_odd_last_absent ["agents"; "1234"; "keys"]).
  reflexivity.
Defined.

(** ** get_restful_params *)

Lemma last_value_items (query_params : list (string * string)) k :
  Dict.last_value (items query_params) k =
  option_map Some (Dict.last_value query_params k).
Proof.
  induction query_params as [|[k0 v0] qp IH]; simpl; auto.
  rewrite IH. destruct (Dict.last_value qp k); simpl; auto.
  destruct (String.eqb k0 k); auto.
Qed.

Lemma last_value_member {V : Type} (pairs : list (string * V)) k v :
  Dict.last_value pairs k = Some v -> In (k, v) pairs.
Proof.
  induction pairs as [|[k0 v0] pairs IH]; simpl; [discriminate|].
  destruct (Dict.last_value pairs k) as [w|].
  - intros E. right. apply IH. exact E.
  - destruct (String.eqb k0 k) eqn:E; [|discriminate].
    apply String.eqb_eq in E. intros [= ->]. left. now subst.
Qed.

Section RestfulParamsFacts.
Context `{UrllibParse}.

(** The function, once the two library calls have returned. *)
Lemma get_restful_params_unfold urlstring parsed_path query_params :
  urlsplit (Str.strip urlstring "/") = Ok parsed_path ->
  parse_qsl (query parsed_path) = Ok query_params ->
  get_restful_params urlstring =
  match check_version (Str.split (path parsed_path) "/") with
  | None => Ok None
  | Some (api_version, path_tokens) =>
      Ok (Some (Dict.update
                  (Dict.setitem (list_to_dict path_tokens) "api_version"
                     (Some api_version))
                  (items query_params)))
  end.
Proof.
  intros Hsplit Hqsl. unfold get_restful_params.
  rewrite Hsplit. simpl. rewrite Hqsl. simpl.
  destruct (check_version _) as [[? ?]|]; reflexivity.
Qed.


End RestfulParamsFacts.


(** In its default mode [parse_qsl] reads what it can and never raises. *)
Lemma parse_fields_lenient fields :
  exists pairs, CPython.parse_fields false fields = Ok pairs.
Proof.
  induction fields as [|f fields [pairs IH]]; simpl; eauto.
  destruct (String.eqb f ""); simpl; eauto.
  destruct (Str.split1 f "=") as [n [v|]]; eauto.
  rewrite IH. simpl. destruct (String.eqb v ""); eauto.
Qed.

Lemma parse_qsl_lenient qs :
  exists pairs, parse_qsl qs = Ok pairs.
Proof. apply parse_fields_lenient. Qed.

(** C1, as stated, fails on the recorded version: for
    [/v2/agents/1234?verifier=v1] the entry under [api_version] is the
    path token [v2], not the bare version [2]. *)
Lemma get_restful_params_v2_not_bare_version :
  exists d,
    get_restful_params "/v2/agents/1234?verifier=v1" = Ok (Some d)
    /\ Dict.get d "api_version" = Some (Some "v2")
    /\ Dict.get d "api_version" <> Some (Some API_VERSION).
Proof.
  eexists. split; [reflexivity|]. split; [reflexivity|].
  vm_compute. discriminate.
Qed.

(** C1 (amended): for the input URL [/v2/agents/1234?verifier=v1] with
    the current API version [2], [get_restful_params] returns exactly the
    map [{agents: 1234, api_version: v2, verifier: v1}], in that order:
    the [api_version] entry holds the version token as the path has it. *)
Theorem get_restful_params_v2_example :
  get_restful_params "/v2/agents/1234?verifier=v1"
  = Ok (Some [("agents", Some "1234"); ("api_version", Some "v2");
              ("verifier", Some "v1")]).
Proof. reflexivity. Qed.







(** C7: query-string entries are merged after the path-derived ones.
    Whenever the parse goes through, the returned map is the path-derived
    map (the paired path tokens, then [api_version]) updated with the
    query pairs in order; its keys are unique, the path-derived keys
    first; and every name the query gives, a path-derived key or not,
    holds the last value the query gives it. *)
Theorem get_restful_params_query_overrides `{UrllibParse}
    (urlstring : string) (parsed_path : SplitResult)
    (query_params : list (string * string))
    (api_version : string) (path_tokens : list string)
    (k v : string) :
  urlsplit (Str.strip urlstring "/") = Ok parsed_path ->
  parse_qsl (query parsed_path) = Ok query_params ->
  check_version (Str.split (path parsed_path) "/")
  = Some (api_version, path_tokens) ->
  Dict.last_value query_params k = Some v ->
  exists path_params d,
    path_params = Dict.setitem (list_to_dict path_tokens) "api_version"
                    (Some api_version)
    /\ get_restful_params urlstring = Ok (Some d)
    /\ d = Dict.update path_params (items query_params)
    /\ NoDup (Dict.keys d)
    /\ (exists added, Dict.keys d = Dict.keys path_params ++ added)
    /\ In (k, v) query_params
    /\ Dict.get d k = Some (Some v)
    /\ Dict.get path_params "api_version" = Some (Some api_version)
    /\ (forall k', Dict.last_value query_params k' = None ->
                   Dict.get d k' = Dict.get path_params k').
Proof.
  intros Hsplit Hqsl Hv Hlast.
  eexists. eexists. split; [reflexivity|].
  split.
  { rewrite (get_restful_params_unfold _ _ _ Hsplit Hqsl), Hv. reflexivity. }
  split; [reflexivity|]. split.
  { apply NoDup_keys_update, NoDup_keys_setitem.
    rewrite list_to_dict_pair_up. apply NoDup_keys_pair_up. constructor. }
  split; [apply keys_update_prefix|].
  split; [now apply last_value_member|].
  split.
  { rewrite get_update, last_value_items, Hlast. reflexivity. }
  split; [apply get_setitem_eq|].
  intros k' Hnone. now rewrite get_update, last_value_items, Hnone.
Qed.

Lemma get_restful_params_query_overrides_witness :
  Dict.get (Dict.setitem (list_to_dict ["agents"; "1234"]) "api_version"
              (Some "v2")) "agents" = Some (Some "1234")
  /\ exists path_params d,
       path_params = Dict.setitem (list_to_dict ["agents"; "1234"])
                       "api_version" (Some "v2")
       /\ get_restful_params
            "/v2/agents/1234?agents=5&api_version=9&agents=7"
          = Ok (Some d)
       /\ d = Dict.update path_params
                (items [("agents", "5"); ("api_version", "9");
                        ("agents", "7")])
       /\ NoDup (Dict.keys d)
       /\ (exists added, Dict.keys d = Dict.keys path_params ++ added)
       /\ In ("agents", "7")
            [("agents", "5"); ("api_version", "9"); ("agents", "7")]
       /\ Dict.get d "agents" = Some (Some "7")
       /\ Dict.get path_params "api_version" = Some (Some "v2")
       /\ (forall k',
             Dict.last_value
               [("agents", "5"); ("api_version", "9"); ("agents", "7")] k'
             = None ->
             Dict.get d k' = Dict.get path_params k').
Proof.
  split; [reflexivity|].
  apply (@get_restful_params_query_overrides cpython_urllib
           "/v2/agents/1234?agents=5&api_version=9&agents=7"
           (mkSplitResult "" "" "v2/agents/1234"
              "agents=5&api_version=9&agents=7" "")
           [("agents", "5"); ("api_version", "9"); ("agents", "7")]
           "v2" ["agents"; "1234"] "agents" "7");
    reflexivity.
Defined.

(** ** valid_regex and valid_exclude_list *)

Lemma append_assoc (a b c : string) :
  ((a ++ b) ++ c = a ++ (b ++ c))%string.
Proof. induction a as [|x a IH]; simpl; [reflexivity | now rewrite IH]. Qed.

(** The alternation [(p1)|(p2)|...|(pn)] in the words of the spec: every
    pattern in parentheses, the groups joined by bars. *)
Definition alternation (patterns : list string) : string :=
  Str.join "|" (map (fun p => ("(" ++ p ++ ")")%string) patterns).

(** The string [valid_exclude_list] builds is that alternation. *)
Lemma combined_regex_alternation p rest :
  ("(" ++ Str.join ")|(" (p :: rest) ++ ")")%string = alternation (p :: rest).
Proof.
  unfold alternation. revert p.
  induction rest as [|q rest IH]; intros p.
  - reflexivity.
  - change (Str.join ")|(" (p :: q :: rest))
      with (p ++ ")|(" ++ Str.join ")|(" (q :: rest))%string.
    change (Str.join "|" (map (fun p => ("(" ++ p ++ ")")%string)
                            (p :: q :: rest)))
      with (("(" ++ p ++ ")") ++ "|"
            ++ Str.join "|" (map (fun p => ("(" ++ p ++ ")")%string)
                               (q :: rest)))%string.
    rewrite <- IH. rewrite !append_assoc. reflexivity.
Qed.

(** The compiler raises, on the pattern given, something that is not
    [re.error]. *)
Definition compile_raises `{ReModule} (regex : option string) : bool :=
  match regex with
  | Some pattern =>
      match re_compile pattern with
      | Raised _ => true
      | _ => false
      end
  | None => false
  end.

(** C5, as stated, fails on a pattern for which the compiler raises an
    exception other than [re.error]: a repetition count that is too large
    makes it raise [OverflowError], which [valid_regex] does not catch. *)
Lemma valid_regex_overflow_raises :
  SreFragment.in_fragment "a{99999999999999999999}" = true
  /\ re_compile "a{99999999999999999999}" = Raised OverflowError
  /\ valid_regex (Some "a{99999999999999999999}") = Raise OverflowError.
Proof. repeat split; reflexivity. Qed.

(** C5 (amended): for every pattern on which the compiler returns or
    raises [re.error], [valid_regex] raises nothing and its result has
    one of two shapes: [(True, compiled, None)] when the pattern
    compiles; [(False, None, message)] when the compiler reports an
    error, the message being non-empty and made of the compiler's
    diagnostic; so exactly one of the compiled pattern and the message is
    set.  For an absent pattern the result is [(True, None, None)]. *)
Theorem valid_regex_shapes `{ReModule} (regex : option string) :
  compile_raises regex = false ->
  (regex = None /\ valid_regex regex = Ok (true, None, None))
  \/ (exists pattern compiled_regex,
        regex = Some pattern
        /\ re_compile pattern = Compiled compiled_regex
        /\ valid_regex regex = Ok (true, Some compiled_regex, None))
  \/ (exists pattern msg err,
        regex = Some pattern
        /\ re_compile pattern = ReError msg
        /\ err = ("Invalid regex: " ++ msg ++ ".")%string
        /\ err <> EmptyString
        /\ valid_regex regex = Ok (false, None, Some err)).
Proof.
  destruct regex as [pattern|]; [|left; split; reflexivity].
  intros Hraises. right. unfold valid_regex. simpl in Hraises.
  destruct (re_compile pattern) as [compiled_regex|msg|e] eqn:E.
  - left. exists pattern, compiled_regex. repeat split; auto.
  - right. exists pattern, msg. eexists. repeat split; eauto.
    discriminate.
  - discriminate.
Qed.

Lemma valid_regex_shapes_witness :
  (Some "a**" = None /\ valid_regex (Some "a**") = Ok (true, None, None))
  \/ (exists pattern compiled_regex,
        Some "a**" = Some pattern
        /\ re_compile pattern = Compiled compiled_regex
        /\ valid_regex (Some "a**") = Ok (true, Some compiled_regex, None))
  \/ (exists pattern msg err,
        Some "a**" = Some pattern
        /\ re_compile pattern = ReError msg
        /\ err = ("Invalid regex: " ++ msg ++ ".")%string
        /\ err <> EmptyString
        /\ valid_regex (Some "a**") = Ok (false, None, Some err)).
Proof.
  apply (@valid_regex_shapes sre_fragment (Some "a**")).
  reflexivity.
Defined.

(** C9: on the empty list [valid_exclude_list] answers
    [(True, None, None)]; on a non-empty list it answers what
    [valid_regex] answers on the alternation [(p1)|(p2)|...|(pn)].  For
    [a.*b] and [c+] that is the result for [(a.*b)|(c+)]; for the single
    pattern [(] the string is [(()], and when the compiler rejects it the
    result is [False] with a non-empty message. *)
Theorem valid_exclude_list_alternation `{ReModule} :
  valid_exclude_list [] = Ok (true, None, None)
  /\ (forall exclude_list, exclude_list <> [] ->
        valid_exclude_list exclude_list
        = valid_regex (Some (alternation exclude_list)))
  /\ (alternation ["a.*b"; "c+"] = "(a.*b)|(c+)"
      /\ valid_exclude_list ["a.*b"; "c+"]
         = valid_regex (Some "(a.*b)|(c+)"))
  /\ (alternation ["("] = "(()"
      /\ forall msg, re_compile "(()" = ReError msg ->
           valid_exclude_list ["("]
           = Ok (false, None, Some ("Invalid regex: " ++ msg ++ ".")%string)
           /\ ("Invalid regex: " ++ msg ++ ".")%string <> EmptyString).
Proof.
  split; [reflexivity|]. split.
  - intros [|p rest] Hne; [now contradiction Hne|].
    unfold valid_exclude_list. now rewrite combined_regex_alternation.
  - split; [split; reflexivity|]. split; [reflexivity|].
    intros msg Hmsg. split; [|discriminate].
    unfold valid_exclude_list, valid_regex. simpl. now rewrite Hmsg.
Qed.

Lemma valid_exclude_list_alternation_witness :
  valid_exclude_list ["a.*b"; "c+"]
  = valid_regex (Some (alternation ["a.*b"; "c+"]))
  /\ valid_exclude_list ["a.*b"; "c+"] = valid_regex (Some "(a.*b)|(c+)")
  /\ valid_exclude_list ["("]
     = Ok (false, None,
           Some "Invalid regex: missing ), unterminated subpattern.").
Proof.
  split; [|split].
  - apply (proj1 (proj2 (@valid_exclude_list_alternation sre_fragment))).
    discriminate.
  - exact (proj2 (proj1 (proj2 (proj2
             (@valid_exclude_list_alternation sre_fragment))))).
  - exact (proj1 (proj2 (proj2 (proj2 (proj2
             (@valid_exclude_list_alternation sre_fragment))))
             "missing ), unterminated subpattern" eq_refl)).
Defined.

(** ** echo_json_response *)

Section EchoFacts.
Context `{HttpClient} `{SimpleJson}.


End EchoFacts.




(** C10: with the status omitted and a status code that has no entry in
    the reason-phrase table, [echo_json_response] raises [KeyError] for
    every handler that is not [None], of a supported class or not, and
    before anything is called on the handler. *)
Theorem echo_json_response_unknown_code_raises `{HttpClient} `{SimpleJson}
    (handler : handler) (code : Z) (results : option json) :
  responses code = None ->
  Eff.run (echo_json_response (Some handler) (Some code) None results)
  = ([], Raise KeyError).
Proof.
  intros Hr. unfold Eff.run, echo_json_response, Eff.bind, Eff.lift.
  unfold responses_getitem. rewrite Hr. reflexivity.
Qed.

Lemma echo_json_response_unknown_code_raises_witness :
  Eff.run (echo_json_response (Some (mkHandler true false (fun _ => None)))
             (Some 999%Z) None (Some (JDict [])))
  = ([], Raise KeyError).
Proof.
  apply (echo_json_response_unknown_code_raises
           (mkHandler true false (fun _ => None)) 999%Z (Some (JDict []))).
  reflexivity.
Defined.

(** With code [200], no status and no payload the body written to a
    [BaseHTTPRequestHandler] is the envelope with the phrase [OK] and an
    empty [results] object. *)
Example echo_json_response_ok_envelope :
  Eff.run (echo_json_response (Some (mkHandler true false (fun _ => None)))
             (Some 200%Z) None None)
  = ([send_response 200; send_header "Content-Type" "application/json";
      end_headers;
      wfile_write
        (Str.encode_utf8
           (dumps (JDict [("code", JInt 200); ("status", JStr "OK");
                          ("results", JDict [])])))],
     Ok true)
  /\ String.length
       (dumps (JDict [("code", JInt 200); ("status", JStr "OK");
                      ("results", JDict [])])) = 44.
Proof. split; reflexivity. Qed.

(* ================================================================== *)
(** * Further properties *)

(** ** list_to_dict with repeated keys *)

(** The loop is one [update] with the pairs of the token list. *)
Lemma pair_up_update l : forall acc,
  pair_up l acc = Dict.update acc (pairs_of l).
Proof.
  induction l as [| k | k v rest IH] using pair_ind; intros acc;
    try reflexivity.
  cbn [pair_up pairs_of Dict.update]. apply IH.
Qed.

(** The pair at position [j] is made of the tokens at [2j] and [2j+1]. *)
Lemma nth_error_pairs_of l : forall j,
  nth_error (pairs_of l) j =
  match nth_error l (2 * j) with
  | Some k => Some (k, nth_error l (2 * j + 1))
  | None => None
  end.
Proof.
  induction l as [| k | k v rest IH] using pair_ind; intros j.
  - destruct j; reflexivity.
  - destruct j as [|j]; [reflexivity|].
    replace (2 * S j) with (S (S (2 * j))) by lia.
    simpl. destruct j; reflexivity.
  - destruct j as [|j]; [reflexivity|].
    replace (2 * S j) with (S (S (2 * j))) by lia.
    cbn [pairs_of nth_error]. rewrite IH.
    replace (S (S (2 * j)) + 1) with (S (S (2 * j + 1))) by lia.
    reflexivity.
Qed.

Lemma last_value_absent {V : Type} (pairs : list (string * V)) k :
  (forall j v, nth_error pairs j <> Some (k, v)) ->
  Dict.last_value pairs k = None.
Proof.
  induction pairs as [|[k0 v0] pairs IH]; intros Hno; simpl; auto.
  rewrite IH.
  - destruct (String.eqb k0 k) eqn:E; auto.
    apply String.eqb_eq in E. subst. now contradiction (Hno 0 v0).
  - intros j v. exact (Hno (S j) v).
Qed.

Lemma last_value_at {V : Type} (pairs : list (string * V)) k v : forall j,
  nth_error pairs j = Some (k, v) ->
  (forall j' v', j < j' -> nth_error pairs j' <> Some (k, v')) ->
  Dict.last_value pairs k = Some v.
Proof.
  induction pairs as [|[k0 v0] pairs IH]; intros j Hj Hlater.
  - destruct j; discriminate.
  - simpl. destruct j as [|j].
    + injection Hj as -> ->.
      rewrite last_value_absent.
      * now rewrite String.eqb_refl.
      * intros j' v'. apply (Hlater (S j') v'). lia.
    + rewrite (IH j Hj); auto.
      intros j' v' Hlt. apply (Hlater (S j') v'). lia.
Qed.

(** X1: looking a key up in [list_to_dict list] gives the token that
    follows the last occurrence of the key at an even position, or [None]
    when that occurrence is the final token of the list. *)
Theorem list_to_dict_last_assignment (list : list string) (k : string)
    (j : nat) :
  nth_error list (2 * j) = Some k ->
  (forall j', j < j' -> nth_error list (2 * j') <> Some k) ->
  Dict.get (list_to_dict list) k = Some (nth_error list (2 * j + 1)).
Proof.
  intros Hj Hlater.
  rewrite list_to_dict_pair_up, pair_up_update, get_update.
  rewrite (last_value_at (pairs_of list) k (nth_error list (2 * j + 1)) j).
  - reflexivity.
  - now rewrite nth_error_pairs_of, Hj.
  - intros j' v' Hlt. rewrite nth_error_pairs_of.
    destruct (nth_error list (2 * j')) as [k'|] eqn:E; [|discriminate].
    intros [= -> _]. now apply (Hlater j' Hlt).
Qed.

Lemma list_to_dict_last_assignment_witness :
  Dict.get (list_to_dict ["a"; "1"; "b"; "2"; "a"; "3"; "c"]) "a"
  = Some (nth_error ["a"; "1"; "b"; "2"; "a"; "3"; "c"] (2 * 2 + 1)).
Proof.
  apply (list_to_dict_last_assignment
           ["a"; "1"; "b"; "2"; "a"; "3"; "c"] "a" 2).
  - reflexivity.
  - intros [|[|[|[|j']]]] Hlt; try lia; simpl; try discriminate.
    replace (j' + S (S (S (S (j' + 0))))) with (S (S (S (S (j' + j'))))) by lia.
    simpl. destruct (j' + j'); discriminate.
Defined.

(** A token that stands at no even position is not a key of the result. *)
Lemma list_to_dict_not_a_key (list : list string) (k : string) :
  (forall j, nth_error list (2 * j) <> Some k) ->
  Dict.get (list_to_dict list) k = None.
Proof.
  intros Hno.
  rewrite list_to_dict_pair_up, pair_up_update, get_update.
  rewrite last_value_absent; [reflexivity|].
  intros j v. rewrite nth_error_pairs_of.
  destruct (nth_error list (2 * j)) as [k'|] eqn:E; [|discriminate].
  intros [= -> _]. now apply (Hno j).
Qed.

(** The first occurrences of a list, in order. *)
Fixpoint first_occurrences (l : list string) : list string :=
  match l with
  | [] => []
  | x :: rest =>
      x :: filter (fun y => negb (String.eqb x y)) (first_occurrences rest)
  end.

Definition not_among (seen : list string) (y : string) : bool :=
  negb (existsb (String.eqb y) seen).

Lemma not_among_In seen y : not_among seen y = false <-> In y seen.
Proof.
  unfold not_among. rewrite negb_false_iff, existsb_exists. split.
  - intros [x [Hin E]]. apply String.eqb_eq in E. now subst.
  - intros Hin. exists y. split; auto. apply String.eqb_refl.
Qed.

Lemma filter_not_among_present seen k l :
  In k seen ->
  filter (not_among seen) (filter (fun y => negb (String.eqb k y)) l)
  = filter (not_among seen) l.
Proof.
  intros Hin. induction l as [|y l IH]; simpl; auto.
  destruct (String.eqb k y) eqn:E; simpl.
  - apply String.eqb_eq in E. subst y.
    apply not_among_In in Hin. now rewrite Hin.
  - now rewrite IH.
Qed.

Lemma filter_not_among_snoc seen k l :
  filter (not_among (seen ++ [k])) l
  = filter (not_among seen) (filter (fun y => negb (String.eqb k y)) l).
Proof.
  induction l as [|y l IH]; simpl; auto.
  assert (not_among (seen ++ [k]) y
          = negb (String.eqb k y) && not_among seen y) as E.
  { unfold not_among. rewrite existsb_app. simpl.
    rewrite orb_false_r, negb_orb, (String.eqb_sym y k).
    apply andb_comm. }
  rewrite E. destruct (String.eqb k y); simpl; rewrite IH; reflexivity.
Qed.

(** [update] keeps the keys in place and appends the new ones in the
    order of their first occurrence. *)
Lemma keys_update {V : Type} (pairs : list (string * V)) : forall d,
  Dict.keys (Dict.update d pairs)
  = Dict.keys d
    ++ filter (not_among (Dict.keys d)) (first_occurrences (map fst pairs)).
Proof.
  induction pairs as [|[k v] pairs IH]; intros d; simpl.
  - now rewrite app_nil_r.
  - rewrite IH.
    destruct (in_dec string_dec k (Dict.keys d)) as [Hin|Hn].
    + rewrite (keys_setitem_present d k v Hin).
      pose proof (proj2 (not_among_In (Dict.keys d) k) Hin) as ->.
      now rewrite filter_not_among_present.
    + rewrite (setitem_fresh d k v Hn).
      assert (not_among (Dict.keys d) k = true) as ->.
      { destruct (not_among (Dict.keys d) k) eqn:E; auto.
        apply not_among_In in E. contradiction. }
      unfold Dict.keys at 1 2. rewrite map_app. simpl.
      fold (Dict.keys d).
      rewrite filter_not_among_snoc, <- app_assoc. reflexivity.
Qed.

Lemma filter_all_true {A : Type} (f : A -> bool) (l : list A) :
  (forall x, f x = true) -> filter f l = l.
Proof.
  intros Hf. induction l as [|x l IH]; simpl; auto.
  now rewrite Hf, IH.
Qed.

Lemma length_first_occurrences l :
  length (first_occurrences l) <= length l.
Proof.
  induction l as [|x l IH]; simpl; auto.
  pose proof (filter_length_le
                (fun y => negb (String.eqb x y)) (first_occurrences l)).
  lia.
Qed.

(** X2: the keys of [list_to_dict list] are the tokens at the even
    positions, each once, in the order of their first occurrence; so the
    result never has more than [ceil(len/2)] entries. *)
Theorem list_to_dict_keys (list : list string) :
  Dict.keys (list_to_dict list) = first_occurrences (key_tokens list)
  /\ NoDup (Dict.keys (list_to_dict list))
  /\ (forall k, In k (Dict.keys (list_to_dict list))
                <-> In k (key_tokens list))
  /\ length (list_to_dict list) <= (length list + 1) / 2.
Proof.
  assert (Dict.keys (list_to_dict list)
          = first_occurrences (key_tokens list)) as Hkeys.
  { rewrite list_to_dict_pair_up, pair_up_update, keys_update.
    simpl. fold (Dict.keys (pairs_of list)). rewrite keys_pairs_of.
    apply filter_all_true. reflexivity. }
  split; [exact Hkeys|]. split; [|split].
  - rewrite list_to_dict_pair_up. apply NoDup_keys_pair_up. constructor.
  - intros k. rewrite <- get_None_notin_iff.
    rewrite list_to_dict_pair_up, pair_up_update, get_update.
    simpl. rewrite <- keys_pairs_of. unfold Dict.keys.
    split.
    + intros Hg. destruct (Dict.last_value (pairs_of list) k) eqn:E;
        [|contradiction].
      apply last_value_member in E.
      apply (in_map fst) in E. exact E.
    + intros Hin. destruct (last_value_in (pairs_of list) k Hin) as [v ->].
      discriminate.
  - rewrite <- length_key_tokens.
    rewrite <- (length_map fst (list_to_dict list)).
    fold (Dict.keys (list_to_dict list)). rewrite Hkeys.
    apply length_first_occurrences.
Qed.

(** ** get_restful_params: slashes, the recorded version, path keys *)

Lemma lstrip_snoc s c :
  Str.lstrip (s ++ String c EmptyString) c
  = match Str.lstrip s c with
    | EmptyString => EmptyString
    | r => (r ++ String c EmptyString)%string
    end.
Proof.
  induction s as [|a s IH]; simpl.
  - now rewrite Ascii.eqb_refl.
  - destruct (Ascii.eqb a c); [exact IH | reflexivity].
Qed.

Lemma rstrip_snoc s c :
  Str.rstrip (s ++ String c EmptyString) c = Str.rstrip s c.
Proof.
  induction s as [|a s IH]; simpl.
  - now rewrite Ascii.eqb_refl.
  - now rewrite IH.
Qed.

Lemma strip_cons s c : Str.strip (String c s) c = Str.strip s c.
Proof. unfold Str.strip. simpl. now rewrite Ascii.eqb_refl. Qed.

Lemma strip_snoc s c :
  Str.strip (s ++ String c EmptyString) c = Str.strip s c.
Proof.
  unfold Str.strip. rewrite lstrip_snoc.
  destruct (Str.lstrip s c) as [|a r] eqn:E; [reflexivity|].
  change (String a r ++ String c EmptyString)%string
    with (String a r ++ String c EmptyString)%string.
  apply rstrip_snoc.
Qed.

(** X3: a slash put before or after the URL changes nothing: the
    function sees the URL with the slashes around it stripped. *)
Theorem get_restful_params_ignores_outer_slashes `{UrllibParse}
    (urlstring : string) :
  get_restful_params (String "/" urlstring) = get_restful_params urlstring
  /\ get_restful_params (urlstring ++ "/") = get_restful_params urlstring.
Proof.
  unfold get_restful_params. split.
  - now rewrite strip_cons.
  - now rewrite strip_snoc.
Qed.

(** The version check passes in two ways only: the tokens are left as
    they are and the default version is recorded, or the first token is
    [v2] and is taken off. *)
Lemma check_version_cases path_tokens api_version rest :
  check_version path_tokens = Some (api_version, rest) ->
  (api_version = API_VERSION /\ rest = path_tokens)
  \/ (api_version = "v2" /\ path_tokens = "v2" :: rest).
Proof.
  unfold check_version.
  destruct path_tokens as [|first tokens]; simpl.
  - intros [= <- <-]. now left.
  - destruct first as [|a [|b [|c first]]]; simpl;
      try (intros [= <- <-]; now left).
    unfold Str.getitem. simpl.
    destruct (Ascii.eqb a "v") eqn:Ea; simpl.
    + destruct (Ascii.eqb b "2") eqn:Eb; simpl; [|discriminate].
      apply Ascii.eqb_eq in Ea, Eb. subst.
      intros [= <- <-]. now right.
    + intros [= <- <-]. now left.
Qed.

Section RestfulParamsMore.
Context `{UrllibParse}.

(** X4: every map the function returns has an entry under
    [api_version] whose value is a string; unless the query sets that
    name itself, the value is the current version [2] or the token
    [v2]. *)
Theorem get_restful_params_records_version (urlstring : string)
    (parsed_path : SplitResult) (query_params : list (string * string))
    (d : pdict) :
  urlsplit (Str.strip urlstring "/") = Ok parsed_path ->
  parse_qsl (query parsed_path) = Ok query_params ->
  get_restful_params urlstring = Ok (Some d) ->
  (exists v, Dict.get d "api_version" = Some (Some v))
  /\ (Dict.last_value query_params "api_version" = None ->
      Dict.get d "api_version" = Some (Some API_VERSION)
      \/ Dict.get d "api_version" = Some (Some "v2")).
Proof.
  intros Hsplit Hqsl.
  rewrite (get_restful_params_unfold _ _ _ Hsplit Hqsl).
  destruct (check_version _) as [[api_version path_tokens]|] eqn:Hv;
    [|discriminate].
  intros [= <-]. rewrite get_update, last_value_items, get_setitem_eq.
  split.
  - destruct (Dict.last_value query_params "api_version"); simpl; eauto.
  - intros ->. simpl.
    destruct (check_version_cases _ _ _ Hv) as [[-> _]|[-> _]]; auto.
Qed.

(** X5: a name that the query does not give, other than [api_version],
    keeps the value the path gave it; in particular, when an odd number
    of path tokens is paired, the last one is a key holding [None]. *)
Theorem get_restful_params_keeps_path_value (urlstring : string)
    (parsed_path : SplitResult) (query_params : list (string * string))
    (api_version : string) (path_tokens : list string) (d : pdict)
    (k : string) :
  urlsplit (Str.strip urlstring "/") = Ok parsed_path ->
  parse_qsl (query parsed_path) = Ok query_params ->
  check_version (Str.split (path parsed_path) "/")
  = Some (api_version, path_tokens) ->
  get_restful_params urlstring = Ok (Some d) ->
  String.eqb k "api_version" = false ->
  Dict.last_value query_params k = None ->
  Dict.get d k = Dict.get (list_to_dict path_tokens) k
  /\ (Nat.odd (length path_tokens) = true -> k = last path_tokens "" ->
      Dict.get d k = Some None).
Proof.
  intros Hsplit Hqsl Hv.
  rewrite (get_restful_params_unfold _ _ _ Hsplit Hqsl), Hv.
  intros [= <-] Hk Hq.
  assert (Dict.get
            (Dict.update
               (Dict.setitem (list_to_dict path_tokens) "api_version"
                  (Some api_version)) (items query_params)) k
          = Dict.get (list_to_dict path_tokens) k) as E.
  { rewrite get_update, last_value_items, Hq. simpl.
    apply get_setitem_neq. apply String.eqb_neq.
    now rewrite String.eqb_sym. }
  split; [exact E|].
  intros Hodd ->. rewrite E, list_to_dict_pair_up.
  now apply pair_up_odd_last.
Qed.

End RestfulParamsMore.

Lemma get_restful_params_records_version_witness :
  (exists v,
     Dict.get [("agents", Some "1234"); ("api_version", Some "2");
               ("x", Some "1")] "api_version" = Some (Some v))
  /\ (Dict.last_value [("x", "1")] "api_version" = None ->
      Dict.get [("agents", Some "1234"); ("api_version", Some "2");
                ("x", Some "1")] "api_version" = Some (Some API_VERSION)
      \/ Dict.get [("agents", Some "1234"); ("api_version", Some "2");
                   ("x", Some "1")] "api_version" = Some (Some "v2")).
Proof.
  apply (get_restful_params_records_version "/agents/1234?x=1"
           (mkSplitResult "" "" "agents/1234" "x=1" "") [("x", "1")]);
    reflexivity.
Defined.

Lemma get_restful_params_keeps_path_value_witness :
  Dict.get [("agents", None); ("api_version", Some "v2");
            ("verifier", Some "v1")] "agents"
  = Dict.get (list_to_dict ["agents"]) "agents"
  /\ (Nat.odd (length ["agents"]) = true -> "agents" = last ["agents"] "" ->
      Dict.get [("agents", None); ("api_version", Some "v2");
                ("verifier", Some "v1")] "agents" = Some None).
Proof.
  apply (get_restful_params_keeps_path_value "/v2/agents?verifier=v1"
           (mkSplitResult "" "" "v2/agents" "verifier=v1" "")
           [("verifier", "v1")] "v2" ["agents"]);
    reflexivity.
Defined.

(** ** get_restful_params on a URL without a colon *)

Lemma contains_lstrip s c x :
  Str.contains s x = false -> Str.contains (Str.lstrip s c) x = false.
Proof.
  induction s as [|a s IH]; simpl; auto.
  intros Hc. apply orb_false_iff in Hc. destruct Hc as [Ha Hs].
  destruct (Ascii.eqb a c); auto. simpl. now rewrite Ha, Hs.
Qed.

Lemma contains_rstrip s c x :
  Str.contains s x = false -> Str.contains (Str.rstrip s c) x = false.
Proof.
  induction s as [|a s IH]; simpl; auto.
  intros Hc. apply orb_false_iff in Hc. destruct Hc as [Ha Hs].
  specialize (IH Hs).
  destruct (Str.rstrip s c) as [|b r].
  - destruct (Ascii.eqb a c); simpl; auto. now rewrite Ha.
  - simpl in *. now rewrite Ha, IH.
Qed.

Lemma split1_absent s x :
  Str.contains s x = false -> Str.split1 s x = (s, None).
Proof.
  induction s as [|a s IH]; simpl; auto.
  intros Hc. apply orb_false_iff in Hc. destruct Hc as [Ha Hs].
  now rewrite Ha, (IH Hs).
Qed.

(** What is left after stripping does not start with the stripped
    character. *)
Lemma lstrip_head s c a r :
  Str.lstrip s c = String a r -> Ascii.eqb a c = false.
Proof.
  induction s as [|b s IH]; simpl; [discriminate|].
  destruct (Ascii.eqb b c) eqn:E; auto.
  intros [= -> _]. exact E.
Qed.

Lemma strip_head s c a r :
  Str.strip s c = String a r -> Ascii.eqb a c = false.
Proof.
  unfold Str.strip.
  destruct (Str.lstrip s c) as [|b t] eqn:E; [discriminate|].
  apply lstrip_head in E. simpl.
  destruct (Str.rstrip t c).
  - rewrite E. now intros [= <- _].
  - now intros [= <- _].
Qed.

Lemma split_components_plain url :
  String.eqb (substring 0 2 url) "//" = false ->
  exists p q f,
    CPython.split_components "" url = Ok (mkSplitResult "" "" p q f).
Proof.
  intros E. unfold CPython.split_components. rewrite E. simpl.
  destruct (Str.split1 url "#") as [u [f|]];
    destruct (Str.split1 u "?") as [p [q|]]; eauto.
Qed.

(** The text starts with a control character or a space, which
    [urlsplit] drops. *)
Definition leading_blank (s : string) : bool :=
  match s with
  | String c _ => nat_of_ascii c <=? 32
  | EmptyString => false
  end.

Lemma contains_remove_unsafe s x :
  Str.contains s x = false ->
  Str.contains (CPython.remove_unsafe s) x = false.
Proof.
  induction s as [|a s IH]; simpl; auto.
  intros Hc. apply orb_false_iff in Hc. destruct Hc as [Ha Hs].
  destruct ((nat_of_ascii a =? 9) || (nat_of_ascii a =? 13)
            || (nat_of_ascii a =? 10)); simpl; auto.
  now rewrite Ha, IH.
Qed.

(** A text that starts with a character above the space keeps that
    character in front when [urlsplit] cleans it. *)
Lemma clean_head c r :
  (nat_of_ascii c <=? 32) = false ->
  CPython.remove_unsafe (CPython.lstrip_c0 (String c r))
  = String c (CPython.remove_unsafe r).
Proof.
  intros Hc. simpl. rewrite Hc. simpl.
  apply Nat.leb_gt in Hc.
  destruct (nat_of_ascii c =? 9) eqn:E9;
    [apply Nat.eqb_eq in E9; lia|].
  destruct (nat_of_ascii c =? 13) eqn:E13;
    [apply Nat.eqb_eq in E13; lia|].
  destruct (nat_of_ascii c =? 10) eqn:E10;
    [apply Nat.eqb_eq in E10; lia|].
  reflexivity.
Qed.

(** X6: a URL without a colon has no scheme and, when the text left by
    stripping the slashes does not start with a control character or a
    space, no network location either: [urlsplit] accepts it, and
    [get_restful_params] raises nothing on it. *)
Theorem get_restful_params_no_colon (urlstring : string) :
  Str.contains urlstring ":" = false ->
  leading_blank (Str.strip urlstring "/") = false ->
  (exists p q f,
     urlsplit (Str.strip urlstring "/") = Ok (mkSplitResult "" "" p q f))
  /\ raises (get_restful_params urlstring) = false.
Proof.
  intros Hc Hb.
  assert (Str.contains (Str.strip urlstring "/") ":" = false) as Hcs.
  { unfold Str.strip. now apply contains_rstrip, contains_lstrip. }
  assert (exists p q f,
            urlsplit (Str.strip urlstring "/")
            = Ok (mkSplitResult "" "" p q f)) as Hsplit.
  { simpl. unfold CPython.urlsplit.
    destruct (Str.strip urlstring "/") as [|c r] eqn:E.
    - simpl. apply split_components_plain. reflexivity.
    - simpl in Hb. rewrite (clean_head c r Hb).
      assert (Str.contains (String c (CPython.remove_unsafe r)) ":" = false)
        as Hcc.
      { rewrite <- (clean_head c r Hb).
        apply contains_remove_unsafe. simpl. rewrite Hb. exact Hcs. }
      rewrite (split1_absent _ _ Hcc).
      apply split_components_plain.
      apply strip_head in E. simpl.
      destruct (CPython.remove_unsafe r); simpl; now rewrite E. }
  split; [exact Hsplit|].
  destruct Hsplit as [p [q [f Hsplit]]].
  destruct (parse_qsl_lenient q) as [query_params Hqsl].
  rewrite (get_restful_params_unfold urlstring _ query_params Hsplit Hqsl).
  destruct (check_version _) as [[? ?]|]; reflexivity.
Qed.

Lemma get_restful_params_no_colon_witness :
  (exists p q f,
     urlsplit (Str.strip "//v2/agents/1234?verifier=v1" "/")
     = Ok (mkSplitResult "" "" p q f))
  /\ raises (get_restful_params "//v2/agents/1234?verifier=v1") = false.
Proof.
  apply (get_restful_params_no_colon "//v2/agents/1234?verifier=v1");
    reflexivity.
Defined.

(** ** echo_json_response: the calls made on the handler *)

Section EchoMore.
Context `{HttpClient} `{SimpleJson}.







(** X8: the defaults are what the call supplies when they are given in
    full: leaving [results] out is passing the empty dictionary, and
    leaving [status] out is passing the reason phrase of the code, when
    it has one. *)
Theorem echo_json_response_defaults (handler : option handler)
    (code : Z) (status : option string) (results : option json)
    (phrase : string) :
  responses code = Some phrase ->
  echo_json_response handler (Some code) status None
  = echo_json_response handler (Some code) status (Some (JDict []))
  /\ Eff.run (echo_json_response handler (Some code) None results)
     = Eff.run (echo_json_response handler (Some code) (Some phrase)
                  results).
Proof.
  intros Hr. split.
  - destruct handler; reflexivity.
  - destruct handler as [h|]; [|reflexivity].
    unfold Eff.run, echo_json_response, Eff.bind, Eff.lift, Eff.ret.
    unfold responses_getitem. rewrite Hr. reflexivity.
Qed.


End EchoMore.


(** A handler whose [end_headers] raises, the connection being closed:
    three calls are made, nothing is written, and the exception reaches
    the caller. *)
Example echo_json_response_broken_pipe :
  Eff.run (echo_json_response
             (Some (mkHandler true false
                      (fun c => match c with
                                | end_headers =>
                                    Some (PyException "BrokenPipeError")
                                | _ => None
                                end)))
             (Some 200%Z) None None)
  = ([send_response 200; send_header "Content-Type" "application/json";
      end_headers],
     Raise (PyException "BrokenPipeError")).
Proof. reflexivity. Qed.

Lemma echo_json_response_defaults_witness :
  echo_json_response (Some (mkHandler false true (fun _ => None))) (Some 404%Z) None None
  = echo_json_response (Some (mkHandler false true (fun _ => None))) (Some 404%Z) None
      (Some (JDict []))
  /\ Eff.run (echo_json_response (Some (mkHandler false true (fun _ => None)))
                (Some 404%Z) None None)
     = Eff.run (echo_json_response (Some (mkHandler false true (fun _ => None)))
                  (Some 404%Z) (Some "Not Found") None).
Proof.
  apply (echo_json_response_defaults (Some (mkHandler false true (fun _ => None)))
           404%Z None None "Not Found").
  reflexivity.
Defined.

(** ** convert and list_convert *)

Section ConvertFacts.
Context `{Codec}.

(** Induction over a value, with the property at hand for every element
    of a container. *)
Section ObjInd.
Variable P : obj -> Prop.
Hypothesis HBytes : forall b, P (PyBytes b).
Hypothesis HStr : forall s, P (PyStr s).
Hypothesis HInt : forall z, P (PyInt z).
Hypothesis HNone : P PyNone.
Hypothesis HDict : forall items,
  Forall (fun kv => P (fst kv) /\ P (snd kv)) items -> P (PyDict items).
Hypothesis HTuple : forall elts, Forall P elts -> P (PyTuple elts).
Hypothesis HList : forall elts, Forall P elts -> P (PyList elts).

Fixpoint obj_induction (x : obj) : P x :=
  match x with
  | PyBytes b => HBytes b
  | PyStr s => HStr s
  | PyInt z => HInt z
  | PyNone => HNone
  | PyDict items =>
      HDict items
        ((fix go (l : list (obj * obj))
            : Forall (fun kv => P (fst kv) /\ P (snd kv)) l :=
            match l with
            | [] => Forall_nil _
            | (k, v) :: r =>
                Forall_cons (k, v) (conj (obj_induction k) (obj_induction v))
                  (go r)
            end) items)
  | PyTuple elts =>
      HTuple elts
        ((fix go (l : list obj) : Forall P l :=
            match l with
            | [] => Forall_nil _
            | y :: r => Forall_cons y (obj_induction y) (go r)
            end) elts)
  | PyList elts =>
      HList elts
        ((fix go (l : list obj) : Forall P l :=
            match l with
            | [] => Forall_nil _
            | y :: r => Forall_cons y (obj_induction y) (go r)
            end) elts)
  end.
End ObjInd.

(** Some [bytes] object occurs in the value. *)
Fixpoint has_bytes (x : obj) : bool :=
  match x with
  | PyBytes _ => true
  | PyDict items =>
      existsb (fun kv => has_bytes (fst kv) || has_bytes (snd kv)) items
  | PyTuple elts | PyList elts => existsb has_bytes elts
  | _ => false
  end.

(** No key of the items is equal to a later one. *)
Fixpoint keys_distinct (items : list (obj * obj)) : bool :=
  match items with
  | [] => true
  | (k, _) :: rest =>
      forallb (fun kv => negb (obj_eqb k (fst kv))) rest && keys_distinct rest
  end.

(** Every [dict] in the value has pairwise distinct keys, as every
    [dict] object has. *)
Fixpoint dicts_distinct (x : obj) : bool :=
  match x with
  | PyDict items =>
      keys_distinct items
      && forallb (fun kv => dicts_distinct (fst kv) && dicts_distinct (snd kv))
           items
  | PyTuple elts | PyList elts => forallb dicts_distinct elts
  | _ => true
  end.

(** Every [bytes] object in the value decodes. *)
Fixpoint all_decodable (x : obj) : bool :=
  match x with
  | PyBytes b =>
      match decode b with Decoded _ => true | UnicodeDecodeError => false end
  | PyDict items =>
      forallb (fun kv => all_decodable (fst kv) && all_decodable (snd kv))
        items
  | PyTuple elts | PyList elts => forallb all_decodable elts
  | _ => true
  end.

Definition is_decoded {A : Type} (m : decoded A) : bool :=
  match m with Decoded _ => true | UnicodeDecodeError => false end.

(** *** The items of a dictionary *)

Lemma items_set_fresh d k v :
  forallb (fun kv => negb (obj_eqb (fst kv) k)) d = true ->
  items_set d k v = d ++ [(k, v)].
Proof.
  induction d as [|[k' v'] d IH]; simpl; auto.
  intros Hd. apply andb_true_iff in Hd. destruct Hd as [Hk Hd].
  apply negb_true_iff in Hk. rewrite Hk. now rewrite IH.
Qed.

Lemma keys_distinct_app_cons acc k v rest :
  keys_distinct (acc ++ (k, v) :: rest) = true ->
  forallb (fun kv => negb (obj_eqb (fst kv) k)) acc = true.
Proof.
  induction acc as [|[k' v'] acc IH]; simpl; auto.
  intros Hd. apply andb_true_iff in Hd. destruct Hd as [Hk Hd].
  rewrite forallb_app in Hk. apply andb_true_iff in Hk.
  destruct Hk as [_ Hk]. simpl in Hk.
  apply andb_true_iff in Hk. destruct Hk as [Hk _].
  rewrite Hk. simpl. now apply IH.
Qed.

(** [dict] of pairs with distinct keys is the pairs themselves. *)
Lemma dict_from_distinct pairs : forall acc,
  keys_distinct (acc ++ pairs) = true -> dict_from acc pairs = acc ++ pairs.
Proof.
  induction pairs as [|[k v] pairs IH]; intros acc Hd; simpl.
  - now rewrite app_nil_r.
  - rewrite (items_set_fresh acc k v (keys_distinct_app_cons _ _ _ _ Hd)).
    rewrite IH; rewrite <- app_assoc; auto.
Qed.

Lemma forallb_items_set (p : obj -> bool) d k v :
  forallb (fun kv => p (fst kv)) d = true -> p k = true ->
  forallb (fun kv => p (fst kv)) (items_set d k v) = true.
Proof.
  intros Hd Hk. induction d as [|[k' v'] d IH]; simpl in *.
  - now rewrite Hk.
  - apply andb_true_iff in Hd. destruct Hd as [Hk' Hd].
    destruct (obj_eqb k' k); simpl; rewrite Hk'; simpl; auto.
Qed.

Lemma keys_distinct_items_set d k v :
  keys_distinct d = true -> keys_distinct (items_set d k v) = true.
Proof.
  induction d as [|[k' v'] d IH]; simpl; auto.
  intros Hd. apply andb_true_iff in Hd. destruct Hd as [Hk Hd].
  destruct (obj_eqb k' k) eqn:E; simpl.
  - now rewrite Hk, Hd.
  - rewrite (IH Hd), andb_true_r.
    apply (forallb_items_set (fun x => negb (obj_eqb k' x))); auto.
    now rewrite E.
Qed.

Lemma keys_distinct_dict_from pairs : forall acc,
  keys_distinct acc = true -> keys_distinct (dict_from acc pairs) = true.
Proof.
  induction pairs as [|[k v] pairs IH]; intros acc Hd; simpl; auto.
  apply IH. now apply keys_distinct_items_set.
Qed.



Lemma length_items_set d k v : length (items_set d k v) <= S (length d).
Proof.
  induction d as [|[k' v'] d IH]; simpl; auto.
  destruct (obj_eqb k' k); simpl; lia.
Qed.

Lemma length_dict_from pairs : forall acc,
  length (dict_from acc pairs) <= length acc + length pairs.
Proof.
  induction pairs as [|[k v] pairs IH]; intros acc; simpl; [lia|].
  pose proof (IH (items_set acc k v)).
  pose proof (length_items_set acc k v). lia.
Qed.

(** *** Mapping over a container *)

Lemma map_decoded_Forall {A B : Type} (f : A -> decoded B)
    (Q : A -> B -> Prop) (l : list A) : forall ys,
  Forall (fun x => forall y, f x = Decoded y -> Q x y) l ->
  map_decoded f l = Decoded ys -> Forall2 Q l ys.
Proof.
  induction l as [|x l IH]; intros ys Hl; simpl.
  - intros [= <-]. constructor.
  - inversion Hl as [|? ? Hx Hrest]; subst.
    destruct (f x) as [y|] eqn:Ex; [|discriminate].
    destruct (map_decoded f l) as [ys'|] eqn:El; [|discriminate].
    intros [= <-]. constructor; auto.
Qed.

Lemma map_decoded_id {A : Type} (f : A -> decoded A) (l : list A) :
  Forall (fun x => f x = Decoded x) l -> map_decoded f l = Decoded l.
Proof.
  induction 1 as [|x l Hx Hl IH]; simpl; auto.
  now rewrite Hx, IH.
Qed.

Lemma is_decoded_map_decoded {A B : Type} (f : A -> decoded B) (l : list A) :
  is_decoded (map_decoded f l) = forallb (fun x => is_decoded (f x)) l.
Proof.
  induction l as [|x l IH]; simpl; auto.
  destruct (f x); simpl; auto.
  rewrite <- IH. destruct (map_decoded f l); reflexivity.
Qed.

Lemma forallb_Forall_ext {A : Type} (f g : A -> bool) (l : list A) :
  Forall (fun x => f x = g x) l -> forallb f l = forallb g l.
Proof.
  induction 1 as [|x l Hx Hl IH]; simpl; auto. now rewrite Hx, IH.
Qed.

End ConvertFacts.

Section ConvertTheorems.
Context `{Codec}.

(** A value [convert] can return: no [bytes] in it, and distinct keys
    in each of its dictionaries. *)
Definition clean (y : obj) : Prop :=
  has_bytes y = false /\ dicts_distinct y = true.




Lemma elts_clean ys :
  existsb has_bytes ys = false -> forallb dicts_distinct ys = true ->
  Forall clean ys.
Proof.
  induction ys as [|y ys IH]; simpl; intros Hb Hd; constructor.
  - apply orb_false_iff in Hb. apply andb_true_iff in Hd.
    split; tauto.
  - apply orb_false_iff in Hb. apply andb_true_iff in Hd.
    apply IH; tauto.
Qed.

Lemma items_clean pairs :
  existsb (fun kv => has_bytes (fst kv) || has_bytes (snd kv)) pairs = false ->
  forallb (fun kv => dicts_distinct (fst kv) && dicts_distinct (snd kv))
    pairs = true ->
  Forall (fun kv => clean (fst kv) /\ clean (snd kv)) pairs.
Proof.
  induction pairs as [|[k v] ps IH]; simpl; intros Hb Hd; constructor.
  - apply orb_false_iff in Hb. destruct Hb as [Hb _].
    apply orb_false_iff in Hb.
    apply andb_true_iff in Hd. destruct Hd as [Hd _].
    apply andb_true_iff in Hd. unfold clean. simpl. tauto.
  - apply orb_false_iff in Hb. apply andb_true_iff in Hd.
    apply IH; tauto.
Qed.


(** On a clean value [convert] changes nothing. *)
Lemma convert_of_clean x : clean x -> convert x = Decoded x.
Proof.
  induction x as [b|s|z| |items IH|elts IH|elts IH] using obj_induction;
    intros [Hb Hd]; simpl in *; try reflexivity; try discriminate.
  - apply andb_true_iff in Hd. destruct Hd as [Hk Hd].
    pose proof (items_clean _ Hb Hd) as Hc.
    rewrite (map_decoded_id (convert_item convert) items).
    + simpl. unfold dict. rewrite dict_from_distinct; auto.
    + rewrite Forall_forall in *. intros [k v] Hin.
      destruct (IH _ Hin) as [IHk IHv]. destruct (Hc _ Hin) as [Hck Hcv].
      simpl in *. now rewrite (IHk Hck), (IHv Hcv).
  - pose proof (elts_clean _ Hb Hd) as Hc.
    rewrite (map_decoded_id convert elts); [reflexivity|].
    rewrite Forall_forall in *. intros y Hin. apply (IH _ Hin), (Hc _ Hin).
  - pose proof (elts_clean _ Hb Hd) as Hc.
    rewrite (map_decoded_id convert elts); [reflexivity|].
    rewrite Forall_forall in *. intros y Hin. apply (IH _ Hin), (Hc _ Hin).
Qed.


End ConvertTheorems.

Section ConvertProperties.
Context `{Codec}.


(** X11: a value that holds no [bytes] object, and whose dictionaries
    have distinct keys as Python dictionaries do, is returned as it
    is. *)
Theorem convert_without_bytes (data : obj) :
  has_bytes data = false ->
  dicts_distinct data = true ->
  convert data = Decoded data.
Proof. intros Hb Hd. apply convert_of_clean. now split. Qed.

(** X12: [convert] raises [UnicodeDecodeError] exactly when some
    [bytes] object in the value, at any depth, a key or a value, does not
    decode. *)
Theorem convert_raises_iff (data : obj) :
  convert data = UnicodeDecodeError <-> all_decodable data = false.
Proof.
  assert (is_decoded (convert data) = all_decodable data) as E.
  { induction data as [b|s|z| |items IH|elts IH|elts IH]
      using obj_induction; simpl; try reflexivity.
    - destruct (decode b); reflexivity.
    - transitivity (is_decoded (map_decoded (convert_item convert) items)).
      { destruct (map_decoded (convert_item convert) items); reflexivity. }
      rewrite is_decoded_map_decoded. apply forallb_Forall_ext.
      rewrite Forall_forall in *. intros [k v] Hin.
      destruct (IH _ Hin) as [IHk IHv]. simpl in *.
      rewrite <- IHk, <- IHv.
      destruct (convert k); simpl; auto. destruct (convert v); reflexivity.
    - transitivity (is_decoded (map_decoded convert elts)).
      { destruct (map_decoded convert elts); reflexivity. }
      rewrite is_decoded_map_decoded. now apply forallb_Forall_ext.
    - transitivity (is_decoded (map_decoded convert elts)).
      { destruct (map_decoded convert elts); reflexivity. }
      rewrite is_decoded_map_decoded. now apply forallb_Forall_ext. }
  rewrite <- E. destruct (convert data); simpl; split; congruence.
Qed.

(** X13: a [bytes] key and a later [str] key that is the decoded text
    become one key: the dictionary returned has a single entry for them,
    at the place of the first, holding the value of the second. *)
Theorem convert_merges_keys (b : list Byte.byte) (s s' : text)
    (v1 v2 w1 w2 : obj) :
  decode b = Decoded s ->
  text_eqb s s' = true ->
  convert v1 = Decoded w1 ->
  convert v2 = Decoded w2 ->
  convert (PyDict [(PyBytes b, v1); (PyStr s', v2)])
  = Decoded (PyDict [(PyStr s, w2)]).
Proof.
  intros Hb Hs H1 H2. simpl. rewrite Hb, H1, H2. simpl.
  unfold dict. simpl. now rewrite Hs.
Qed.

(** X14: [convert] keeps the kind of a container.  A list or a tuple
    comes back with its elements converted one by one, so with the same
    length; a dictionary comes back as a dictionary with distinct keys
    and at most as many entries. *)
Theorem convert_containers (elts : list obj) (items : list (obj * obj))
    (y : obj) :
  (convert (PyList elts) = Decoded y ->
   exists ys, y = PyList ys
              /\ Forall2 (fun x y' => convert x = Decoded y') elts ys)
  /\ (convert (PyTuple elts) = Decoded y ->
      exists ys, y = PyTuple ys
                 /\ Forall2 (fun x y' => convert x = Decoded y') elts ys)
  /\ (convert (PyDict items) = Decoded y ->
      exists items', y = PyDict items'
                     /\ keys_distinct items' = true
                     /\ length items' <= length items).
Proof.
  split; [|split]; simpl.
  - destruct (map_decoded convert elts) as [ys|] eqn:E; [|discriminate].
    intros [= <-]. exists ys. split; auto.
    apply (map_decoded_Forall convert _ elts ys); auto.
    apply Forall_forall. auto.
  - destruct (map_decoded convert elts) as [ys|] eqn:E; [|discriminate].
    intros [= <-]. exists ys. split; auto.
    apply (map_decoded_Forall convert _ elts ys); auto.
    apply Forall_forall. auto.
  - destruct (map_decoded (convert_item convert) items) as [pairs|] eqn:E;
      [|discriminate].
    intros [= <-]. exists (dict pairs). split; auto. split.
    + now apply keys_distinct_dict_from.
    + pose proof (length_dict_from pairs []) as Hl. simpl in Hl.
      assert (length pairs = length items) as <-; [|exact Hl].
      symmetry.
      apply (Forall2_length
               (map_decoded_Forall (convert_item convert)
                  (fun _ _ => True) items pairs
                  (proj2 (Forall_forall _ _) (fun _ _ _ _ => I)) E)).
Qed.

End ConvertProperties.


Lemma convert_without_bytes_witness :
  convert (PyTuple [PyStr (Utf8.of_string "a"); PyNone;
                    PyDict [(PyInt 1, PyStr (Utf8.of_string "b"));
                            (PyInt 2, PyList [])]])
  = Decoded (PyTuple [PyStr (Utf8.of_string "a"); PyNone;
                      PyDict [(PyInt 1, PyStr (Utf8.of_string "b"));
                              (PyInt 2, PyList [])]]).
Proof.
  apply (@convert_without_bytes utf8_codec); reflexivity.
Defined.

Lemma convert_merges_keys_witness :
  convert (PyDict [(PyBytes (Utf8.of_string "a"), PyInt 1);
                   (PyStr (Utf8.of_string "a"), PyInt 2)])
  = Decoded (PyDict [(PyStr (Utf8.of_string "a"), PyInt 2)]).
Proof.
  apply (@convert_merges_keys utf8_codec
           (Utf8.of_string "a") (Utf8.of_string "a")
           (Utf8.of_string "a") (PyInt 1) (PyInt 2) (PyInt 1) (PyInt 2));
    reflexivity.
Defined.

Lemma convert_containers_witness :
  exists ys,
    @PyList utf8_codec [@PyStr utf8_codec (Utf8.of_string "a"); PyInt 7]
    = PyList ys
    /\ Forall2 (fun x y' => convert x = Decoded y')
         [PyBytes (Utf8.of_string "a"); PyInt 7] ys.
Proof.
  apply (proj1 (@convert_containers utf8_codec
                  [PyBytes (Utf8.of_string "a"); PyInt 7] []
                  (PyList [@PyStr utf8_codec (Utf8.of_string "a");
                           PyInt 7]))).
  reflexivity.
Defined.

(** ** get_config *)

Section ConfigFacts.
Variables (file ConfigParser : Type).
Variable read : file -> ConfigParser.

(** Once the global is set, calls return it and read nothing. *)
Lemma get_config_calls_cached (files : list file) (config : ConfigParser) :
  get_config_calls read files (Some config)
  = (repeat config (length files), Some config, 0).
Proof.
  induction files as [|f files IH]; simpl; auto.
  now rewrite IH.
Qed.

(** X15: in a series of calls that starts with the global unset, the
    file is read once, at the first call, and every call returns what was
    read then, whatever the file has become in between. *)
Theorem get_config_reads_once (f : file) (files : list file) :
  get_config_calls read (f :: files) None
  = (repeat (read f) (S (length files)), Some (read f), 1).
Proof.
  cbn [get_config_calls get_config].
  now rewrite get_config_calls_cached.
Qed.

End ConfigFacts.

(** ** chownroot and ch_dir *)

Section ChDirFacts.
Variable REQUIRE_ROOT : bool.
Variable env : os_env.

Lemma attempted_prefix raises plan :
  exists rest, plan = attempted raises plan ++ rest.
Proof.
  induction plan as [|c plan [rest IH]]; simpl.
  - now exists [].
  - destruct (raises c).
    + now exists plan.
    + exists rest. simpl. now rewrite <- IH.
Qed.

Lemma In_chownroot c path :
  In c (chownroot REQUIRE_ROOT env path) ->
  (c = os_chown path 0 0 /\ geteuid env = 0%Z)
  \/ (exists msg, c = logger_debug msg
                  /\ geteuid env <> 0%Z /\ REQUIRE_ROOT = true).
Proof.
  unfold chownroot.
  destruct (Z.eqb_spec (geteuid env) 0) as [E|E]; simpl.
  - intros [<-|[]]. now left.
  - destruct REQUIRE_ROOT; simpl; [|tauto].
    intros [<-|[]]. right. eauto.
Qed.

(** X16: [ch_dir] creates the directory only when the path does not
    exist, and with mode [0o700]; it changes the owner only of a
    directory it has just created, only to root, and only when it runs as
    root; it logs only when it has created the directory, does not run as
    root and [REQUIRE_ROOT] is set. *)
Theorem ch_dir_creates_only_missing (path : string) :
  (forall p mode, In (os_makedirs p mode) (ch_dir REQUIRE_ROOT env path) ->
     p = path /\ mode = 448%Z /\ path_exists env path = false)
  /\ (forall p uid gid,
        In (os_chown p uid gid) (ch_dir REQUIRE_ROOT env path) ->
        p = path /\ uid = 0%Z /\ gid = 0%Z
        /\ path_exists env path = false /\ geteuid env = 0%Z)
  /\ (forall msg, In (logger_debug msg) (ch_dir REQUIRE_ROOT env path) ->
        path_exists env path = false /\ geteuid env <> 0%Z
        /\ REQUIRE_ROOT = true).
Proof.
  unfold ch_dir.
  destruct (path_exists env path) eqn:Ex; simpl.
  - repeat split; intros;
      repeat match goal with
        | Hin : _ \/ _ |- _ => destruct Hin as [Hin|Hin]
        | Hin : False |- _ => contradiction
        | Hin : _ = _ |- _ => discriminate Hin
        end.
  - split; [|split].
    + intros p mode [[= <- <-]|Hin]; [auto|].
      apply in_app_or in Hin. destruct Hin as [Hin|Hin].
      * apply In_chownroot in Hin.
        destruct Hin as [[? _]|[msg [? _]]]; discriminate.
      * destruct Hin as [?|[?|[]]]; discriminate.
    + intros p uid gid [?|Hin]; [discriminate|].
      apply in_app_or in Hin. destruct Hin as [Hin|Hin].
      * apply In_chownroot in Hin.
        destruct Hin as [[[= -> -> ->] E]|[msg [? _]]]; [auto|discriminate].
      * destruct Hin as [?|[?|[]]]; discriminate.
    + intros msg [?|Hin]; [discriminate|].
      apply in_app_or in Hin. destruct Hin as [Hin|Hin].
      * apply In_chownroot in Hin.
        destruct Hin as [[? _]|[msg' [_ [E R]]]]; [discriminate|auto].
      * destruct Hin as [?|[?|[]]]; discriminate.
Qed.

(** X17: whatever was done before, [ch_dir] ends by setting the umask
    to [0o077] and then entering the directory; on a path that exists
    these two calls are all it makes.  When a call raises, the calls made
    are the planned ones up to that call. *)
Theorem ch_dir_ends_in_umask_chdir (path : string)
    (raises : os_call -> bool) :
  (exists before,
     ch_dir REQUIRE_ROOT env path
     = before ++ [os_umask 63; os_chdir path]
     /\ (path_exists env path = true -> before = [])
     /\ length before <= 2)
  /\ (exists rest,
        ch_dir REQUIRE_ROOT env path
        = attempted raises (ch_dir REQUIRE_ROOT env path) ++ rest)
  /\ ((forall c, raises c = false) ->
      attempted raises (ch_dir REQUIRE_ROOT env path)
      = ch_dir REQUIRE_ROOT env path).
Proof.
  split; [|split].
  - unfold ch_dir. destruct (path_exists env path); simpl.
    + exists []. repeat split; auto.
    + exists (os_makedirs path 448 :: chownroot REQUIRE_ROOT env path).
      split; [reflexivity|]. split; [discriminate|].
      unfold chownroot. simpl.
      destruct (geteuid env =? 0)%Z; [simpl; lia|].
      destruct REQUIRE_ROOT; simpl; lia.
  - apply attempted_prefix.
  - intros Hno. induction (ch_dir REQUIRE_ROOT env path) as [|c l IH];
      simpl; auto.
    now rewrite Hno, IH.
Qed.

End ChDirFacts.

Lemma ch_dir_creates_only_missing_witness :
  "/var/lib/keylime" = "/var/lib/keylime" /\ 0%Z = 0%Z /\ 0%Z = 0%Z
  /\ path_exists (mkOsEnv 0 (fun _ => false)) "/var/lib/keylime" = false
  /\ geteuid (mkOsEnv 0 (fun _ => false)) = 0%Z.
Proof.
  apply (proj1 (proj2 (ch_dir_creates_only_missing true
                         (mkOsEnv 0 (fun _ => false)) "/var/lib/keylime"))).
  simpl. right. left. reflexivity.
Defined.

Lemma ch_dir_ends_in_umask_chdir_witness :
  attempted (fun _ => false)
    (ch_dir true (mkOsEnv 1000 (fun _ => false)) "/var/lib/keylime")
  = ch_dir true (mkOsEnv 1000 (fun _ => false)) "/var/lib/keylime".
Proof.
  apply (proj2 (proj2 (ch_dir_ends_in_umask_chdir true
                         (mkOsEnv 1000 (fun _ => false))
                         "/var/lib/keylime" (fun _ => false)))).
  reflexivity.
Defined.

(** ** valid_exclude_list: the list is validated as one pattern *)

Lemma join_cons sep a l :
  l <> [] -> Str.join sep (a :: l) = (a ++ sep ++ Str.join sep l)%string.
Proof. destruct l; [congruence | reflexivity]. Qed.

Lemma join_merged sep p q before after :
  Str.join sep (before ++ (p ++ sep ++ q)%string :: after)
  = Str.join sep (before ++ p :: q :: after).
Proof.
  induction before as [|a before IH].
  - destruct after as [|x after]; simpl.
    + reflexivity.
    + now rewrite !append_assoc.
  - rewrite <- !app_comm_cons.
    rewrite !join_cons by (now destruct before).
    now rewrite IH.
Qed.

(** X18: the patterns are not validated one by one.  An element that
    contains the separator [)|(] is read as two patterns: the list with
    the element [p)|(q] gets the same answer as the list with the two
    elements [p] and [q] in its place. *)
Theorem valid_exclude_list_joined_element `{ReModule}
    (before after : list string) (p q : string) :
  valid_exclude_list (before ++ (p ++ ")|(" ++ q)%string :: after)
  = valid_exclude_list (before ++ p :: q :: after).
Proof.
  unfold valid_exclude_list.
  destruct (before ++ (p ++ ")|(" ++ q)%string :: after) eqn:E1;
    [now destruct before|].
  destruct (before ++ p :: q :: after) eqn:E2; [now destruct before|].
  rewrite <- E1, <- E2. now rewrite join_merged.
Qed.

(** With the fragment compiler: the element [a)|(b] is no pattern on its
    own, and the list that holds only it is accepted. *)
Example exclude_list_element_not_checked :
  valid_regex (Some "a)|(b")
  = Ok (false, None, Some "Invalid regex: unbalanced parenthesis.")
  /\ exists compiled_regex,
       valid_exclude_list ["a)|(b"] = Ok (true, Some compiled_regex, None).
Proof. split; [reflexivity | eexists; reflexivity]. Qed.
